(** * GPS track simulator: the path generator and the map orchestrator

    A shallow embedding of [Main.py].  The script geocodes a place name,
    synthesises a random walk of coordinates around it, draws the walk
    on a folium map, saves the map and opens it in a browser.

    - Python [float] is IEEE 754 binary64, which is Rocq's primitive
      [float]; Python [int] is [Z]; Python [str] is [string].
    - [generate_random_path] is written once, over a class of the four
      arithmetic operations it uses; CPython executes it at the
      machine arithmetic [binary64], where every operation rounds.
    - The process-global generator of the [random] module is a state
      that is passed explicitly: a stream of the future results of
      [random.random()] and a cursor into it.
    - The orchestrator runs in a small state-and-exception monad.  The
      state holds the generator and the log of every call the script
      makes, with the exception the call raised, if any.  What the
      outside world answers (the console line, the geocoder, folium,
      the file system, the browser) is read from a record
      [externals]. *)

From Stdlib Require Import ZArith String Ascii Bool Lia.
From Stdlib Require Import Floats.
From Stdlib Require Import List.
Import ListNotations.

Set Implicit Arguments.
Set Warnings "-inexact-float".

(** ** Arithmetic *)

(** The operations [generate_random_path] and [random.uniform] apply
    to numbers: binary [+], [-], [*] and unary [-]. *)
Class Arith (F : Type) : Type := {
  fadd : F -> F -> F;
  fsub : F -> F -> F;
  fmul : F -> F -> F;
  fneg : F -> F
}.

(** CPython's [float]: every operation rounds to nearest, ties to
    even. *)
#[export] Instance binary64 : Arith float := {
  fadd := PrimFloat.add;
  fsub := PrimFloat.sub;
  fmul := PrimFloat.mul;
  fneg := PrimFloat.opp
}.

(** ** The random source *)

Section Generator.

Context {F : Type} `{Arith F}.

(** State of the module-level generator: [draws k] is the value the
    k-th call of [random.random()] returns, [cursor] counts the calls
    made so far. *)
Record rng : Type := mkRng {
  draws : nat -> F;
  cursor : nat
}.

(** [random.random()]: the next value of the stream, in [0.0, 1.0). *)
Definition random_random (g : rng) : F * rng :=
  (draws g (cursor g), mkRng (draws g) (S (cursor g))).

(** [random.uniform(a, b)] of the standard library:
    [return a + (b - a) * self.random()]. *)
Definition random_uniform (a b : F) (g : rng) : F * rng :=
  let (r, g') := random_random g in
  (fadd a (fmul (fsub b a) r), g').

(** ** generate_random_path *)

Definition coord : Type := (F * F)%type.

(** The body of [for _ in range(num_points - 1)], run [n] times on the
    loop variables [path], [current_lat], [current_lon] and the
    generator. *)
Fixpoint walk (n : nat) (max_step : F) (path : list coord)
    (current_lat current_lon : F) (g : rng) : list coord * rng :=
  match n with
  | O => (path, g)
  | S n' =>
      let (step_lat, g1) := random_uniform (fneg max_step) max_step g in
      let (step_lon, g2) := random_uniform (fneg max_step) max_step g1 in
      let current_lat := fadd current_lat step_lat in
      let current_lon := fadd current_lon step_lon in
      walk n' max_step (path ++ [(current_lat, current_lon)])
           current_lat current_lon g2
  end.

(** [range(k)] yields [max(k, 0)] values: none when [k <= 0]. *)
Definition range_len (k : Z) : nat := Z.to_nat k.

Definition generate_random_path (start_lat start_lon : F) (num_points : Z)
    (max_step : F) (g : rng) : list coord * rng :=
  walk (range_len (num_points - 1)) max_step
       [(start_lat, start_lon)] start_lat start_lon g.

End Generator.

Arguments rng F : clear implicits.
Arguments coord F : clear implicits.

(** ** Strings *)

(** A [str] is a [string] with one [ascii] per code point (code points
    below 256).  [str.isspace] on that range: tab to carriage return,
    the four separators 0x1c-0x1f, space, NEL (0x85) and the no-break
    space (0xa0). *)
Definition isspace (c : ascii) : bool :=
  let n := nat_of_ascii c in
  ((9 <=? n) && (n <=? 13) || (28 <=? n) && (n <=? 31) ||
   (n =? 32) || (n =? 133) || (n =? 160))%nat.

Fixpoint lstrip (s : string) : string :=
  match s with
  | EmptyString => EmptyString
  | String c s' => if isspace c then lstrip s' else s
  end.

Fixpoint rstrip (s : string) : string :=
  match s with
  | EmptyString => EmptyString
  | String c s' =>
      match rstrip s' with
      | EmptyString => if isspace c then EmptyString else String c EmptyString
      | t => String c t
      end
  end.

(** [s.strip()]: whitespace removed at both ends. *)
Definition strip (s : string) : string := rstrip (lstrip s).

(** Truth value of a [str]: the empty string is false. *)
Definition str_bool (s : string) : bool :=
  match s with EmptyString => false | String _ _ => true end.

(** ** Exceptions, calls and the outside world *)

(** An exception: the name of its class and its [str(e)].
    [except Exception] matches the instances of [Exception].
    [KeyboardInterrupt] and [GeneratorExit] derive from
    [BaseException] alone, and so does [SystemExit], which is apart
    because the interpreter ends on it without a traceback. *)
Inductive exn : Type :=
| OfException (class_name message : string)
| OfBaseException (class_name message : string)
| OfSystemExit (message : string).

Definition isinstance_Exception (e : exn) : bool :=
  match e with
  | OfException _ _ => true
  | OfBaseException _ _ | OfSystemExit _ => false
  end.

Definition str_exn (e : exn) : string :=
  match e with
  | OfException _ m | OfBaseException _ m | OfSystemExit m => m
  end.

(** The calls the script makes, with their arguments: the calls out of
    the script and the call of its own [generate_random_path].  A
    statement that chains several library calls
    ([folium.Marker(..., icon=folium.Icon(...)).add_to(m)]) is one
    entry, which raises when one of its calls does. *)
Inductive call : Type :=
| c_input (prompt : string)
| c_print (line : string)
| c_Nominatim (user_agent : string)
| c_geocode (query : string)
| c_Map (location : coord float) (zoom_start : Z)
| c_generate_random_path (start_lat start_lon : float) (num_points : Z)
    (max_step : float)
| c_PolyLine (locations : list (coord float)) (color : string) (weight : Z)
    (opacity : float)
| c_Marker (location : coord float) (popup : string)
    (icon_color icon_name : string)
| c_save (outfile : string)
| c_webbrowser_open (url : string).

(** What the outside world answers.  [ext_raises c] is the exception
    the call [c] raises, [None] when it returns.  [ext_location q] is
    what [geolocator.geocode(q)] returns when it returns: [None], or a
    location with its [latitude] and [longitude].  [ext_str_float] is
    the text an f-string gives a float. *)
Record externals : Type := mkExternals {
  ext_line : string;
  ext_raises : call -> option exn;
  ext_location : string -> option (coord float);
  ext_realpath : string -> string;
  ext_str_float : float -> string
}.

(** The state of a run: the [random] module's generator and the log of
    the calls made so far, oldest first, each with what it raised. *)
Record world : Type := mkWorld {
  w_rng : rng float;
  w_log : list (call * option exn)
}.

Inductive result (A : Type) : Type :=
| Ret (a : A)
| Raise (e : exn).

Arguments Ret {A} a.
Arguments Raise {A} e.

(** ** The monad of the script: state and exceptions *)

Definition Py (A : Type) : Type := world -> result A * world.

Definition ret {A} (a : A) : Py A := fun w => (Ret a, w).

Definition raise {A} (e : exn) : Py A := fun w => (Raise e, w).

Definition bind {A B} (m : Py A) (k : A -> Py B) : Py B :=
  fun w =>
    match m w with
    | (Ret a, w') => k a w'
    | (Raise e, w') => (Raise e, w')
    end.

Declare Scope py_scope.
Delimit Scope py_scope with py.
Notation "x <- m ;; k" := (bind m (fun x => k))
  (at level 61, m at next level, right associativity) : py_scope.
Notation "m ;; k" := (bind m (fun _ => k))
  (at level 61, right associativity) : py_scope.

(** [try: body except Exception as e: handler e]. *)
Definition try_except_Exception {A} (body : Py A) (handler : exn -> Py A)
    : Py A :=
  fun w =>
    match body w with
    | (Ret a, w') => (Ret a, w')
    | (Raise e, w') =>
        if isinstance_Exception e then handler e w' else (Raise e, w')
    end.

Definition logged (w : world) (c : call) (r : option exn) : world :=
  mkWorld (w_rng w) (w_log w ++ [(c, r)]).

Section Script.

Variable ext : externals.

Local Open Scope string_scope.
Local Open Scope py_scope.

(** A call out of the script: logged, then it returns or raises as the
    outside world says. *)
Definition external (c : call) : Py unit :=
  fun w =>
    match ext_raises ext c with
    | None => (Ret tt, logged w c None)
    | Some e => (Raise e, logged w c (Some e))
    end.

(** [print(line)]; writing to the console does not fail. *)
Definition print (line : string) : Py unit :=
  fun w => (Ret tt, logged w (c_print line) None).

(** [input(prompt)]. *)
Definition input (prompt : string) : Py string :=
  external (c_input prompt) ;; ret (ext_line ext).

(** [Nominatim(user_agent=...)] then [geolocator.geocode(query)]. *)
Definition Nominatim (user_agent : string) : Py unit :=
  external (c_Nominatim user_agent).

Definition geocode (query : string) : Py (option (coord float)) :=
  external (c_geocode query) ;; ret (ext_location ext query).

(** The call of [generate_random_path] from the script: it runs on the
    generator of the world and it has no [raise]. *)
Definition call_generate_random_path (start_lat start_lon : float)
    (num_points : Z) (max_step : float) : Py (list (coord float)) :=
  fun w =>
    let (path, g') :=
      generate_random_path start_lat start_lon num_points max_step (w_rng w) in
    (Ret path,
     mkWorld g'
       (w_log w ++
        [(c_generate_random_path start_lat start_lon num_points max_step,
          None)])).

(** [l[i]] on a list: a negative index counts from the end, an index
    out of range raises [IndexError]. *)
Definition getitem {A} (l : list A) (i : Z) : Py A :=
  let n := Z.of_nat (length l) in
  let j := if (i <? 0)%Z then (i + n)%Z else i in
  if (j <? 0)%Z then raise (OfException "IndexError" "list index out of range")
  else match nth_error l (Z.to_nat j) with
       | Some x => ret x
       | None => raise (OfException "IndexError" "list index out of range")
       end.

Definition map_file : string := "gps_tracking_map.html".

Definition newline : string := String (ascii_of_nat 10) EmptyString.

(** The body of the [try] in [create_tracking_map]. *)
Definition tracking_body (start_address : string) : Py unit :=
  Nominatim "gps_tracker_app" ;;
  location <- geocode start_address ;;
  match location with
  | None =>
      print ("Error: Could not find coordinates for '" ++ start_address ++
             "'. Please try a different location.") ;;
      ret tt
  | Some (start_lat, start_lon) =>
      print ("Coordinates found: (" ++ ext_str_float ext start_lat ++ ", " ++
             ext_str_float ext start_lon ++ ")") ;;
      external (c_Map (start_lat, start_lon) 15) ;;
      print "Generating simulated GPS path..." ;;
      gps_path <- call_generate_random_path start_lat start_lon 100
                    0.0008%float ;;
      external (c_PolyLine gps_path "blue" 5 0.8%float) ;;
      first <- getitem gps_path 0 ;;
      external (c_Marker first "Start Point" "green" "play") ;;
      last <- getitem gps_path (-1) ;;
      external (c_Marker last "End Point" "red" "stop") ;;
      external (c_save map_file) ;;
      print (newline ++ "Map has been created successfully!") ;;
      print ("Saved as: " ++ map_file) ;;
      external (c_webbrowser_open ("file://" ++ ext_realpath ext map_file))
  end.

Definition handler_line1 (e : exn) : string :=
  "An error occurred: " ++ str_exn e.

Definition handler_line2 : string :=
  "Please check your internet connection and make sure the location is valid.".

Definition create_tracking_map (start_address : string) : Py unit :=
  print ("Finding coordinates for: " ++ start_address ++ "...") ;;
  try_except_Exception (tracking_body start_address)
    (fun e => print (handler_line1 e) ;; print handler_line2).

Definition prompt : string :=
  "Please enter a starting location (e.g., 'Eiffel Tower, Paris'): ".

(** The part of the script under [if __name__ == '__main__':]. *)
Definition main : Py unit :=
  starting_location <- input prompt ;;
  if str_bool (strip starting_location)
  then create_tracking_map starting_location
  else print "No location entered. Exiting program.".

End Script.

(** How the process ends.  An exception that leaves [main] ends it
    with a traceback, except [SystemExit]: the interpreter then exits
    with the status the exception carries and prints no traceback. *)
Inductive exit : Type :=
| ExitNormally
| ExitTraceback (e : exn)
| ExitStatus (e : exn).

Definition uncaught (e : exn) : exit :=
  match e with
  | OfSystemExit _ => ExitStatus e
  | _ => ExitTraceback e
  end.

Definition run_script (ext : externals) (g : rng float)
    : exit * list (call * option exn) :=
  match main ext (mkWorld g []) with
  | (Ret _, w) => (ExitNormally, w_log w)
  | (Raise e, w) => (uncaught e, w_log w)
  end.

(** ** The script on a console that can fail *)

(** [print] above takes the console for granted.  Here the script is
    written over the [print] it uses, and run with a [print] that
    fails when the outside world says so ([OSError] on a closed
    stream, [UnicodeEncodeError] on a character the console cannot
    encode). *)
Section Console.

Variable ext : externals.

Local Open Scope string_scope.
Local Open Scope py_scope.

(** [print(line)] as a call that can raise. *)
Definition print_or_raise (line : string) : Py unit :=
  external ext (c_print line).

Variable pr : string -> Py unit.

Definition tracking_body_on (start_address : string) : Py unit :=
  Nominatim ext "gps_tracker_app" ;;
  location <- geocode ext start_address ;;
  match location with
  | None =>
      pr ("Error: Could not find coordinates for '" ++ start_address ++
          "'. Please try a different location.") ;;
      ret tt
  | Some (start_lat, start_lon) =>
      pr ("Coordinates found: (" ++ ext_str_float ext start_lat ++ ", " ++
          ext_str_float ext start_lon ++ ")") ;;
      external ext (c_Map (start_lat, start_lon) 15) ;;
      pr "Generating simulated GPS path..." ;;
      gps_path <- call_generate_random_path start_lat start_lon 100
                    0.0008%float ;;
      external ext (c_PolyLine gps_path "blue" 5 0.8%float) ;;
      first <- getitem gps_path 0 ;;
      external ext (c_Marker first "Start Point" "green" "play") ;;
      last <- getitem gps_path (-1) ;;
      external ext (c_Marker last "End Point" "red" "stop") ;;
      external ext (c_save map_file) ;;
      pr (newline ++ "Map has been created successfully!") ;;
      pr ("Saved as: " ++ map_file) ;;
      external ext
        (c_webbrowser_open ("file://" ++ ext_realpath ext map_file))
  end.

Definition create_tracking_map_on (start_address : string) : Py unit :=
  pr ("Finding coordinates for: " ++ start_address ++ "...") ;;
  try_except_Exception (tracking_body_on start_address)
    (fun e => pr (handler_line1 e) ;; pr handler_line2).

Definition main_on : Py unit :=
  starting_location <- input ext prompt ;;
  if str_bool (strip starting_location)
  then create_tracking_map_on starting_location
  else pr "No location entered. Exiting program.".

End Console.

(** The process, with a console that can fail. *)
Definition run_script_console (ext : externals) (g : rng float)
    : exit * list (call * option exn) :=
  match main_on ext (print_or_raise ext) (mkWorld g []) with
  | (Ret _, w) => (ExitNormally, w_log w)
  | (Raise e, w) => (uncaught e, w_log w)
  end.

(** ** Two outside worlds to run the script in *)

(** Every call returns; the geocoder answers [loc] to every query. *)
Definition calm (line : string) (loc : option (coord float)) : externals :=
  mkExternals line (fun _ => None) (fun _ => loc)
    (fun f => String.append "/home/user/" f) (fun _ => "<float>"%string).

(** As [calm], but [geolocator.geocode] raises [e]. *)
Definition geocode_raises (line : string) (e : exn) : externals :=
  mkExternals line
    (fun c => match c with c_geocode _ => Some e | _ => None end)
    (fun _ => None)
    (fun f => String.append "/home/user/" f) (fun _ => "<float>"%string).

Definition eiffel : coord float := (48.8584%float, 2.2945%float).

(** [geolocator.geocode] raises [e] and the handler's first [print]
    raises [e'] in its turn. *)
Definition geocode_and_report_raise (line : string) (e e' : exn)
    : externals :=
  mkExternals line
    (fun c =>
       match c with
       | c_geocode _ => Some e
       | c_print text =>
           if String.eqb text (handler_line1 e) then Some e' else None
       | _ => None
       end)
    (fun _ => None)
    (fun f => String.append "/home/user/" f) (fun _ => "<float>"%string).

Definition half_draws : rng float := mkRng (fun _ => 0.5%float) 0.

(** ** Vocabulary of the statements *)

Section Track.

Context {F : Type} `{Arith F}.

(** The step [random.uniform(-max_step, max_step)] takes on the draw
    at offset [k] from the cursor of [g]. *)
Definition step_of (max_step : F) (g : rng F) (k : nat) : F :=
  fadd (fneg max_step)
       (fmul (fsub max_step (fneg max_step)) (draws g (cursor g + k))).

(** The points appended by [n] iterations that start at
    [(lat, lon)] with the draws from offset [k] on. *)
Fixpoint points (n : nat) (max_step : F) (lat lon : F) (g : rng F) (k : nat)
    : list (coord F) :=
  match n with
  | O => []
  | S n' =>
      let lat' := fadd lat (step_of max_step g k) in
      let lon' := fadd lon (step_of max_step g (S k)) in
      (lat', lon') :: points n' max_step lat' lon' g (S (S k))
  end.

End Track.

(** The entries a run appends to the log. *)
Definition entry : Type := (call * option exn)%type.

Definition is_save (x : entry) : bool :=
  match fst x with c_save _ => true | _ => false end.

Definition is_geocode (x : entry) : bool :=
  match fst x with c_geocode _ => true | _ => false end.

Definition is_Marker (x : entry) : bool :=
  match fst x with c_Marker _ _ _ _ => true | _ => false end.

Definition is_generate (x : entry) : bool :=
  match fst x with c_generate_random_path _ _ _ _ => true | _ => false end.


(** The style of a marker: the colour and the glyph of its icon. *)
Definition marker_style (c : call) : option (string * string) :=
  match c with
  | c_Marker _ _ icon_color icon_name => Some (icon_color, icon_name)
  | _ => None
  end.

(** [p] and [q] are the points of index [i] and [i + 1]. *)
Definition consecutive {A} (l : list A) (i : nat) (p q : A) : Prop :=
  nth_error l i = Some p /\ nth_error l (S i) = Some q.

(** A draw of [random.random()] lies in [0.0, 1.0). *)
Definition unit_draws_b64 (g : rng float) : Prop :=
  forall k, (0 <=? draws g k)%float = true /\ (draws g k <? 1)%float = true.

(** Both differences of two points strictly between [-M] and [M]. *)
Definition within_open_b64 (M : float) (p q : coord float) : Prop :=
  ((- M <? fst q - fst p) && (fst q - fst p <? M) &&
   (- M <? snd q - snd p) && (snd q - snd p <? M))%float = true.

(** *** Magnitudes of binary64 numbers

    A finite number of the format is a sign, a mantissa [m] and an
    exponent [e]: it is [m * 2 ^ e], and among the numbers of the
    format the pair [(e, m)] orders the magnitudes. *)
Definition le_mag (my : positive) (ey : Z) (mz : positive) (ez : Z) : Prop :=
  (ey < ez)%Z \/ (ey = ez /\ (Zpos my <= Zpos mz)%Z).

(** [y] is a zero, or has the sign [s] and a magnitude of at most
    [mz * 2 ^ ez]. *)
Definition below (s : bool) (y : spec_float) (mz : positive) (ez : Z)
    : Prop :=
  match y with
  | S754_zero _ => True
  | S754_finite s' my ey => s' = s /\ le_mag my ey mz ez
  | _ => False
  end.

(** [y] is a zero or has a magnitude of at most [m * 2 ^ e]. *)
Definition within (m : positive) (e : Z) (y : spec_float) : Prop :=
  match y with
  | S754_zero _ => True
  | S754_finite _ my ey => le_mag my ey m e
  | _ => False
  end.

(** The calls of the geocode, generate, render, save and browser-open
    steps: every call but [input] and [print]. *)
Definition is_step_call (c : call) : bool :=
  match c with
  | c_input _ | c_print _ => false
  | _ => true
  end.

(** The first call of a log that raised, with its exception. *)
Fixpoint first_raise (l : list entry) : option (call * exn) :=
  match l with
  | [] => None
  | (c, Some e) :: _ => Some (c, e)
  | (_, None) :: l' => first_raise l'
  end.

(** The entries that follow the first call that raised. *)
Fixpoint after_raise (l : list entry) : list entry :=
  match l with
  | [] => []
  | (_, Some _) :: l' => l'
  | (_, None) :: l' => after_raise l'
  end.

(** What the handler does with [e], as the log [tail] it leaves and
    the way [ex] the process ends: it prints its two lines and the
    process ends normally, or one of the two prints raises and that
    exception ends the process. *)
Definition handled (e : exn) (tail : list entry) (ex : exit) : Prop :=
  (tail = [(c_print (handler_line1 e), None); (c_print handler_line2, None)] /\
   ex = ExitNormally) \/
  (exists e', tail = [(c_print (handler_line1 e), Some e')] /\
              ex = uncaught e') \/
  (exists e', tail = [(c_print (handler_line1 e), None);
                      (c_print handler_line2, Some e')] /\
              ex = uncaught e').

(** Where an exception that ends the process can come from. *)
Definition escapes (ext : externals) (c : call) (e : exn) : Prop :=
  c = c_input prompt \/
  c = c_print ("Finding coordinates for: " ++ ext_line ext ++ "...")%string \/
  c = c_print "No location entered. Exiting program." \/
  (exists e0, c = c_print (handler_line1 e0)) \/
  c = c_print handler_line2 \/
  isinstance_Exception e = false.

(** Every character of the string is whitespace. *)
Fixpoint all_space (s : string) : bool :=
  match s with
  | EmptyString => true
  | String c s' => isspace c && all_space s'
  end.

Definition is_open (x : entry) : bool :=
  match fst x with c_webbrowser_open _ => true | _ => false end.

(** The entries that come before the first one that satisfies [p]. *)
Fixpoint up_to (p : entry -> bool) (l : list entry) : list entry :=
  match l with
  | [] => []
  | x :: l' => if p x then [] else x :: up_to p l'
  end.

(** The two lines printed after [m.save(map_file)]. *)
Definition success_line1 : string :=
  String.append newline "Map has been created successfully!".

Definition success_line2 : string := String.append "Saved as: " map_file.

(** * Properties of the path generator *)

Section GeneratorFacts.

Context {F : Type} `{Arith F}.

Lemma walk_points n : forall (M : F) path lat lon d c,
  fst (walk n M path lat lon (mkRng d c)) =
  path ++ points n M lat lon (mkRng d 0) c.
Proof.
  induction n as [|n IH]; intros M path lat lon d c; simpl.
  - now rewrite app_nil_r.
  - rewrite IH, <- app_assoc. reflexivity.
Qed.

Lemma points_length n : forall (M : F) lat lon g k,
  length (points n M lat lon g k) = n.
Proof.
  induction n as [|n IH]; intros; simpl; [reflexivity | now rewrite IH].
Qed.

(** Two neighbours in [start :: points ...]: the later one is the
    earlier one plus one step per axis, on two draws of its own. *)
Lemma points_consecutive n : forall (M : F) lat lon g k i p q,
  consecutive ((lat, lon) :: points n M lat lon g k) i p q ->
  q = (fadd (fst p) (step_of M g (k + 2 * i)),
       fadd (snd p) (step_of M g (k + 2 * i + 1))).
Proof.
  induction n as [|n IH]; intros M lat lon g k i p q [Hp Hq].
  - destruct i; simpl in Hq; discriminate.
  - destruct i as [|i].
    + simpl in Hp, Hq. injection Hp as <-. injection Hq as <-. simpl.
      now rewrite Nat.add_0_r, Nat.add_1_r.
    + simpl in Hp. change (nth_error (points (S n) M lat lon g k) (S i) = Some q)
        in Hq. simpl in Hp, Hq.
      rewrite (IH M _ _ g (S (S k)) i p q (conj Hp Hq)).
      do 2 f_equal; f_equal; lia.
Qed.

Lemma generate_random_path_points (lat lon : F) N M d c :
  fst (generate_random_path lat lon N M (mkRng d c)) =
  (lat, lon) :: points (range_len (N - 1)) M lat lon (mkRng d 0) c.
Proof. unfold generate_random_path. now rewrite walk_points. Qed.

(** C1: for every start coordinate, every max step and every point
    count [N >= 1], [generate_random_path] returns a path of exactly
    [N] points whose first point is the start coordinate; for [N = 1]
    the path is the one-element list of the start coordinate. *)
Theorem generate_random_path_length_first (lat lon : F) (N : Z) (M : F)
    (g : rng F) :
  (1 <= N)%Z ->
  let path := fst (generate_random_path lat lon N M g) in
  length path = Z.to_nat N /\
  nth_error path 0 = Some (lat, lon) /\
  (N = 1%Z -> path = [(lat, lon)]).
Proof.
  intros HN path. subst path. destruct g as [d c].
  rewrite generate_random_path_points. simpl.
  rewrite points_length. unfold range_len. repeat split.
  - lia.
  - intros ->. reflexivity.
Qed.

End GeneratorFacts.

(** C1 at the end-to-end scenario of the specification: the Eiffel
    Tower, 100 points, steps of at most 0.0008. *)
Lemma generate_random_path_length_first_witness :
  (1 <= 100)%Z /\
  let path := fst (generate_random_path 48.8584%float 2.2945%float 100
                     0.0008%float (mkRng (fun _ => 0.5%float) 0)) in
  length path = 100%nat /\
  nth_error path 0 = Some (48.8584%float, 2.2945%float) /\
  (100%Z = 1%Z -> path = [(48.8584%float, 2.2945%float)]).
Proof.
  split; [lia |].
  apply (generate_random_path_length_first 48.8584%float 2.2945%float
           0.0008%float (mkRng (fun _ => 0.5%float) 0) (N := 100)).
  lia.
Defined.

(** ** Step sizes *)

(** *** Rounding in binary64

    What follows is read off the specification of the binary64
    operations ([SFadd], [SFsub], [SFmul] and the rounding they share):
    a rounded result does not pass a number of the format that bounds
    the exact result. *)

Section Rounding.

Local Open Scope Z_scope.
Local Unset Implicit Arguments.

Lemma fexp64 (z : Z) : fexp prec emax z = Z.max (z - 53) (-1074).
Proof. reflexivity. Qed.

Lemma digits2_size (m : positive) : digits2_pos m = Pos.size m.
Proof. induction m as [m IH | m IH |]; cbn; now rewrite ?IH. Qed.

Lemma digits_bounds (m : positive) :
  2 ^ (Zpos (digits2_pos m) - 1) <= Zpos m < 2 ^ Zpos (digits2_pos m).
Proof.
  rewrite digits2_size. split.
  - pose proof (Pos.size_le m) as H.
    apply Pos2Z.pos_le_pos in H. rewrite Pos2Z.inj_pow in H.
    change (Zpos m~0) with (2 * Zpos m) in H.
    replace (Zpos (Pos.size m)) with (Z.succ (Zpos (Pos.size m) - 1)) in H
      by lia.
    rewrite Z.pow_succ_r in H by lia. lia.
  - pose proof (Pos.size_gt m) as H.
    apply Pos2Z.pos_lt_pos in H. now rewrite Pos2Z.inj_pow in H.
Qed.

Lemma digits_le (m : positive) (k : Z) :
  0 <= k -> Zpos m < 2 ^ k -> Zpos (digits2_pos m) <= k.
Proof.
  intros Hk Hm. destruct (digits_bounds m) as [Hlo _].
  destruct (Z_le_gt_dec (Zpos (digits2_pos m)) k) as [H | H]; [exact H |].
  exfalso. assert (2 ^ k <= 2 ^ (Zpos (digits2_pos m) - 1))
    by (apply Z.pow_le_mono_r; lia). lia.
Qed.

Lemma digits_ge (m : positive) (k : Z) :
  0 <= k -> 2 ^ k <= Zpos m -> k + 1 <= Zpos (digits2_pos m).
Proof.
  intros Hk Hm. destruct (digits_bounds m) as [_ Hhi].
  destruct (Z_le_gt_dec (k + 1) (Zpos (digits2_pos m))) as [H | H];
    [exact H |].
  exfalso. assert (2 ^ Zpos (digits2_pos m) <= 2 ^ k)
    by (apply Z.pow_le_mono_r; lia). lia.
Qed.

(** *** Shifting a mantissa right *)

Lemma iter_pos_nat {A} (f : A -> A) (p : positive) :
  forall x, iter_pos f p x = Nat.iter (Pos.to_nat p) f x.
Proof.
  induction p as [p IH | p IH |]; intros x; cbn [iter_pos].
  - rewrite !IH, Pos2Nat.inj_xI.
    replace (S (2 * Pos.to_nat p))%nat
      with (Pos.to_nat p + (Pos.to_nat p + 1))%nat by lia.
    rewrite !Nat.iter_add. reflexivity.
  - rewrite !IH, Pos2Nat.inj_xO.
    replace (2 * Pos.to_nat p)%nat with (Pos.to_nat p + Pos.to_nat p)%nat
      by lia.
    rewrite Nat.iter_add. reflexivity.
  - reflexivity.
Qed.

Lemma shr_1_spec (r : shr_record) :
  0 <= shr_m r ->
  shr_m (shr_1 r) = shr_m r / 2 /\
  shr_r (shr_1 r) = Z.odd (shr_m r) /\
  shr_s (shr_1 r) = shr_r r || shr_s r.
Proof.
  destruct r as [m rb sb]. cbn [shr_m shr_r shr_s]. intros Hm.
  destruct m as [| [p | p |] | p]; try lia; cbn [shr_1 shr_m shr_r shr_s].
  - repeat split.
  - repeat split. rewrite Pos2Z.inj_xI.
    apply Z.div_unique with (r := 1); lia.
  - repeat split. rewrite Pos2Z.inj_xO.
    apply Z.div_unique with (r := 0); lia.
  - repeat split.
Qed.

Lemma shr_iter_spec (m : Z) (k : nat) :
  0 <= m ->
  let r := Nat.iter k shr_1 (Build_shr_record m false false) in
  shr_m r = m / 2 ^ Z.of_nat k /\
  (m mod 2 ^ Z.of_nat k = 0 -> shr_r r = false /\ shr_s r = false).
Proof.
  intros Hm. induction k as [|k IH]; cbn zeta.
  - cbn [Nat.iter shr_m shr_r shr_s]. rewrite Z.pow_0_r, Z.div_1_r.
    split; [reflexivity | intros _; split; reflexivity].
  - cbn zeta in IH. destruct IH as [IHm IHx].
    change (Nat.iter (S k) shr_1 ?x) with (shr_1 (Nat.iter k shr_1 x)).
    set (r := Nat.iter k shr_1 (Build_shr_record m false false)) in *.
    assert (Hr : 0 <= shr_m r)
      by (rewrite IHm; apply Z.div_pos; [lia | apply Z.pow_pos_nonneg; lia]).
    destruct (shr_1_spec r Hr) as (H1 & H2 & H3).
    rewrite Nat2Z.inj_succ, Z.pow_succ_r by lia.
    assert (Hp : 0 < 2 ^ Z.of_nat k) by (apply Z.pow_pos_nonneg; lia).
    split.
    + rewrite H1, IHm, Z.div_div by lia. f_equal. lia.
    + intros Hmod. apply Z.mod_divide in Hmod; [| lia].
      destruct Hmod as [t Ht].
      assert (Hm0 : m mod 2 ^ Z.of_nat k = 0).
      { apply Z.mod_divide; [lia |]. exists (2 * t). lia. }
      destruct (IHx Hm0) as [Hrb Hsb].
      rewrite H2, H3, Hrb, Hsb, IHm. split; [| reflexivity].
      replace m with ((2 * t) * 2 ^ Z.of_nat k) by lia.
      rewrite Z.div_mul by lia.
      rewrite Z.odd_mul. reflexivity.
Qed.

(** [shr] from an exact record: the quotient, the new exponent, and
    an exact location when nothing is cut off. *)
Lemma shr_spec (m e n : Z) :
  0 <= m ->
  let '(r, e') := shr (Build_shr_record m false false) e n in
  e' = e + Z.max n 0 /\
  shr_m r = m / 2 ^ Z.max n 0 /\
  (m mod 2 ^ Z.max n 0 = 0 -> loc_of_shr_record r = loc_Exact).
Proof.
  intros Hm. destruct n as [| p | p]; cbn [shr].
  - rewrite Z.max_r, Z.add_0_r, Z.pow_0_r, Z.div_1_r by lia.
    repeat split.
  - rewrite Z.max_l by lia. rewrite iter_pos_nat.
    pose proof (shr_iter_spec m (Pos.to_nat p) Hm) as H. cbn zeta in H.
    rewrite positive_nat_Z in H. destruct H as [H1 H2].
    split; [reflexivity |]. split; [exact H1 |].
    intros Hmod. destruct (H2 Hmod) as [Hr Hs].
    destruct (Nat.iter _ _ _) as [m' rb sb]. cbn in Hr, Hs. subst.
    reflexivity.
  - rewrite Z.max_r, Z.add_0_r, Z.pow_0_r, Z.div_1_r by lia.
    repeat split.
Qed.

Lemma round_nearest_even_bounds (q : Z) (l : location) :
  q <= round_nearest_even q l <= q + 1 /\
  (l = loc_Exact -> round_nearest_even q l = q).
Proof.
  destruct l as [| [| |]]; cbn [round_nearest_even];
    try destruct (Z.even q); split; try lia; try discriminate;
    intros _; reflexivity.
Qed.

(** *** A rounded value does not pass a number of the format *)

Lemma bounded_inv (m : positive) (e : Z) :
  bounded prec emax m e = true ->
  Z.max (Zpos (digits2_pos m) + e - 53) (-1074) = e /\ e <= 971.
Proof.
  unfold bounded, canonical_mantissa. rewrite fexp64.
  intros H. apply andb_true_iff in H. destruct H as [H1 H2].
  apply Z.eqb_eq in H1. apply Z.leb_le in H2.
  change (emax - prec) with 971 in H2. split; [exact H1 | exact H2].
Qed.

Lemma round_aux_below (s : bool) (mx : positive) (ex : Z) (mz : positive)
    (ez : Z) :
  bounded prec emax mz ez = true ->
  ex <= fexp prec emax (Zpos (digits2_pos mx) + ex) ->
  ex <= ez ->
  Zpos mx <= Zpos mz * 2 ^ (ez - ex) ->
  below s (binary_round_aux prec emax s (Zpos mx) ex loc_Exact) mz ez.
Proof.
  intros Hz Hpre Hex Hle.
  destruct (bounded_inv mz ez Hz) as [Hcan Hez].
  destruct (digits_bounds mx) as [Hxlo Hxhi].
  destruct (digits_bounds mz) as [Hzlo Hzhi].
  set (dx := Zpos (digits2_pos mx)) in *.
  set (dz := Zpos (digits2_pos mz)) in *.
  assert (Hdx : 0 < dx) by (unfold dx; lia).
  assert (Hdz : 0 < dz) by (unfold dz; lia).
  rewrite fexp64 in Hpre.
  set (e0 := Z.max (dx + ex - 53) (-1074)) in *.
  (* the magnitude of x is at most that of z *)
  assert (Hmag : dx + ex <= dz + ez).
  { assert (Hlt : Zpos mx < 2 ^ (dz + (ez - ex))).
    { rewrite Z.pow_add_r by lia.
      assert (0 < 2 ^ (ez - ex)) by (apply Z.pow_pos_nonneg; lia). nia. }
    pose proof (digits_le mx (dz + (ez - ex)) ltac:(lia) Hlt). unfold dx. lia. }
  assert (He0 : e0 <= ez) by (unfold e0; lia).
  unfold binary_round_aux, shr_fexp.
  cbn [Zdigits2 shr_record_of_loc]. fold dx. rewrite fexp64. fold e0.
  set (n := e0 - ex).
  assert (Hn : 0 <= n) by (unfold n; lia).
  pose proof (shr_spec (Zpos mx) ex n ltac:(lia)) as H1.
  destruct (shr (Build_shr_record (Zpos mx) false false) ex n) as [R1 e1].
  rewrite Z.max_l in H1 by lia. destruct H1 as (-> & Hq & Hexact).
  replace (ex + n) with e0 by (unfold n; lia).
  set (q := shr_m R1) in *.
  assert (Hp2 : 0 < 2 ^ n) by (apply Z.pow_pos_nonneg; lia).
  assert (Hq0 : 0 <= q) by (rewrite Hq; apply Z.div_pos; lia).
  destruct (round_nearest_even_bounds q (loc_of_shr_record R1))
    as [[Hm1lo Hm1hi] Hm1x].
  set (m1 := round_nearest_even q (loc_of_shr_record R1)) in *.
  (* the quotient has at most 53 digits *)
  assert (Hq53 : q < 2 ^ 53).
  { rewrite Hq. apply Z.div_lt_upper_bound; [lia |].
    rewrite <- Z.pow_add_r by lia.
    assert (2 ^ dx <= 2 ^ (n + 53)) by (apply Z.pow_le_mono_r; unfold n; lia).
    lia. }
  (* the mantissa after rounding, against the mantissa of z *)
  assert (Hsame : e0 = ez -> m1 <= Zpos mz).
  { intros E. assert (Hn' : n = ez - ex) by (unfold n; lia).
    assert (Hqz : q <= Zpos mz).
    { rewrite Hq. apply Z.div_le_upper_bound; [lia |]. rewrite Hn'. lia. }
    destruct (Z.eq_dec q (Zpos mz)) as [Eq | Ne]; [| lia].
    assert (Hmod : Zpos mx mod 2 ^ n = 0).
    { pose proof (Z.div_mod (Zpos mx) (2 ^ n) ltac:(lia)) as Hdm.
      pose proof (Z.mod_pos_bound (Zpos mx) (2 ^ n) Hp2) as Hb.
      rewrite <- Hq, Eq in Hdm. rewrite Hn' in *. nia. }
    rewrite (Hm1x (Hexact Hmod)). lia. }
  assert (Hz53 : Zpos mz < 2 ^ 53).
  { assert (dz <= 53) by lia.
    assert (2 ^ dz <= 2 ^ 53) by (apply Z.pow_le_mono_r; lia). lia. }
  assert (Hznorm : -1074 < ez -> 2 ^ 52 <= Zpos mz).
  { intros H. assert (dz = 53) by lia.
    replace 52 with (dz - 1) by lia. exact Hzlo. }
  (* the second shift: none, or one place on a carry to [2 ^ 53] *)
  destruct (Z.eq_dec m1 (2 ^ 53)) as [Ecarry | Ncarry].
  - (* carry *)
    assert (Hlt : e0 < ez).
    { destruct (Z.eq_dec e0 ez) as [E | N]; [| lia].
      specialize (Hsame E). lia. }
    rewrite Ecarry. change (2 ^ 53) with 9007199254740992.
    cbn [Zdigits2 digits2_pos Pos.succ]. rewrite fexp64.
    replace (Z.max (54 + e0 - 53) (-1074) - e0) with 1 by (unfold e0; lia).
    cbn [shr iter_pos shr_1 shr_m].
    replace (e0 + 1 <=? emax - prec) with true
      by (symmetry; apply Z.leb_le; change (emax - prec) with 971; lia).
    cbn [below]. split; [reflexivity |].
    unfold le_mag. destruct (Z.eq_dec (e0 + 1) ez) as [E | N].
    + right. split; [exact E |].
      assert (-1074 < ez) by (unfold e0 in *; lia).
      specialize (Hznorm H). change (2 ^ 52) with 4503599627370496 in Hznorm.
      exact Hznorm.
    + left. lia.
  - (* no carry *)
    assert (Hm153 : m1 < 2 ^ 53) by lia.
    destruct m1 as [| p1 | p1] eqn:Em1; try lia.
    + (* the result is a zero *)
      cbn [Zdigits2]. rewrite fexp64.
      assert (Hn2 : Z.max (0 + e0 - 53) (-1074) - e0 <= 0)
        by (unfold e0; lia).
      destruct (Z.max (0 + e0 - 53) (-1074) - e0) as [| p | p]; try lia;
        cbn [shr shr_m below]; exact I.
    + cbn [Zdigits2]. rewrite fexp64.
      pose proof (digits_le p1 53 ltac:(lia) Hm153) as Hd1.
      assert (Hn2 : Z.max (Zpos (digits2_pos p1) + e0 - 53) (-1074) - e0 <= 0)
        by (unfold e0; lia).
      destruct (Z.max (Zpos (digits2_pos p1) + e0 - 53) (-1074) - e0)
        as [| p | p]; try lia; cbn [shr shr_m].
      all: replace (e0 <=? emax - prec) with true
        by (symmetry; apply Z.leb_le; change (emax - prec) with 971; lia).
      all: cbn [below]; split; [reflexivity |]; unfold le_mag.
      all: destruct (Z.eq_dec e0 ez) as [E | N];
        [right; split; [exact E | exact (Hsame E)] | left; lia].
Qed.

Lemma iter_xO (m : positive) (d : positive) :
  Zpos (Pos.iter xO m d) = Zpos m * 2 ^ Zpos d /\
  Zpos (digits2_pos (Pos.iter xO m d)) = Zpos (digits2_pos m) + Zpos d.
Proof.
  rewrite Pos2Nat.inj_iter, <- (positive_nat_Z d).
  induction (Pos.to_nat d) as [|k [IH1 IH2]].
  - cbn [nat_rect]. rewrite Z.pow_0_r. lia.
  - cbn [nat_rect digits2_pos]. rewrite Pos2Z.inj_xO, IH1, Pos2Z.inj_succ, IH2.
    rewrite Nat2Z.inj_succ, Z.pow_succ_r by lia. lia.
Qed.

(** The mantissa brought to a smaller exponent. *)
Lemma shl_align_spec (m : positive) (e e' : Z) :
  e' <= e ->
  Zpos (fst (shl_align m e e')) = Zpos m * 2 ^ (e - e') /\
  snd (shl_align m e e') = e' /\
  Zpos (digits2_pos (fst (shl_align m e e'))) =
  Zpos (digits2_pos m) + (e - e').
Proof.
  intros H. unfold shl_align. destruct (e' - e) as [| p | p] eqn:E; try lia.
  - assert (e = e') by lia. subst e'. cbn [fst snd].
    rewrite Z.sub_diag, Z.pow_0_r. lia.
  - cbn [fst snd]. destruct (iter_xO m p) as [H1 H2].
    assert (e - e' = Zpos p) by lia. rewrite H1, H2. intuition congruence.
Qed.

Lemma round_below (s : bool) (mx : positive) (ex : Z) (mz : positive)
    (ez : Z) :
  bounded prec emax mz ez = true ->
  ex <= ez ->
  Zpos mx <= Zpos mz * 2 ^ (ez - ex) ->
  below s (binary_round prec emax s mx ex) mz ez.
Proof.
  intros Hz Hex Hle. unfold binary_round.
  set (f := fexp prec emax (Zpos (digits2_pos mx) + ex)).
  destruct (Z_le_gt_dec ex f) as [Hf | Hf].
  - (* nothing to align *)
    unfold shl_align. destruct (f - ex) as [| p | p] eqn:E; try lia;
      apply round_aux_below; assumption.
  - destruct (shl_align_spec mx ex f ltac:(lia)) as (H1 & H2 & H3).
    destruct (shl_align mx ex f) as [m' e']. cbn [fst snd] in H1, H2, H3.
    subst e'. apply round_aux_below.
    + exact Hz.
    + rewrite H3. replace (Zpos (digits2_pos mx) + (ex - f) + f)
        with (Zpos (digits2_pos mx) + ex) by lia. fold f. lia.
    + lia.
    + rewrite H1. replace (ez - f) with ((ez - ex) + (ex - f)) by lia.
      rewrite Z.pow_add_r by lia.
      assert (0 < 2 ^ (ex - f)) by (apply Z.pow_pos_nonneg; lia). nia.
Qed.

(** The order of two numbers of the format is the order of their
    values. *)
Lemma le_mag_value (m1 : positive) (e1 : Z) (m2 : positive) (e2 c : Z) :
  bounded prec emax m1 e1 = true -> bounded prec emax m2 e2 = true ->
  le_mag m1 e1 m2 e2 -> c <= e1 -> c <= e2 ->
  Zpos m1 * 2 ^ (e1 - c) <= Zpos m2 * 2 ^ (e2 - c).
Proof.
  intros H1 H2 [Hlt | [-> Hle]] Hc1 Hc2.
  - destruct (bounded_inv m1 e1 H1) as [C1 _].
    destruct (bounded_inv m2 e2 H2) as [C2 _].
    destruct (digits_bounds m1) as [_ Hhi].
    destruct (digits_bounds m2) as [Hlo _].
    set (d1 := Zpos (digits2_pos m1)) in *.
    set (d2 := Zpos (digits2_pos m2)) in *.
    assert (0 < d1) by (unfold d1; lia). assert (0 < d2) by (unfold d2; lia).
    assert (Hd : d1 + e1 <= d2 + e2 - 1) by lia.
    assert (Ha : Zpos m1 * 2 ^ (e1 - c) < 2 ^ (d1 + (e1 - c))).
    { rewrite Z.pow_add_r by lia.
      assert (0 < 2 ^ (e1 - c)) by (apply Z.pow_pos_nonneg; lia). nia. }
    assert (Hb : 2 ^ ((d2 - 1) + (e2 - c)) <= Zpos m2 * 2 ^ (e2 - c)).
    { rewrite Z.pow_add_r by lia.
      assert (0 < 2 ^ (e2 - c)) by (apply Z.pow_pos_nonneg; lia). nia. }
    assert (2 ^ (d1 + (e1 - c)) <= 2 ^ ((d2 - 1) + (e2 - c)))
      by (apply Z.pow_le_mono_r; lia).
    lia.
  - assert (0 < 2 ^ (e2 - c)) by (apply Z.pow_pos_nonneg; lia). nia.
Qed.

Lemma le_mag_trans (m1 : positive) (e1 : Z) (m2 : positive) (e2 : Z)
    (m3 : positive) (e3 : Z) :
  le_mag m1 e1 m2 e2 -> le_mag m2 e2 m3 e3 -> le_mag m1 e1 m3 e3.
Proof. unfold le_mag. intros [H | [-> H]] [H' | [-> H']]; lia. Qed.

Lemma compare_cont_Eq_spec (p q : positive) :
  CompareSpec (p = q) (p < q)%positive (q < p)%positive
    (Pos.compare_cont Eq p q).
Proof. exact (Pos.compare_spec p q). Qed.

(** *** The three operations of a step *)

(** A product by a number of [[0, 1)] does not pass the other
    factor. *)
Lemma SFmul_below (mw : positive) (ew : Z) (R : spec_float) :
  bounded prec emax mw ew = true ->
  valid_binary R = true ->
  SFleb (S754_zero false) R = true ->
  SFltb R (S754_finite false 4503599627370496 (-52)) = true ->
  below false (SFmul prec emax (S754_finite false mw ew) R) mw ew.
Proof.
  intros Hw HR H0 H1.
  destruct R as [s | s | | s mr er]; cbn [SFmul below].
  - exact I.
  - destruct s; discriminate.
  - discriminate.
  - destruct s; [discriminate |]. cbn [xorb valid_binary] in *.
    destruct (bounded_inv mw ew Hw) as [Cw _].
    destruct (bounded_inv mr er HR) as [Cr _].
    destruct (digits_bounds mw) as [Hwlo Hwhi].
    destruct (digits_bounds mr) as [Hrlo Hrhi].
    set (dw := Zpos (digits2_pos mw)) in *.
    set (dr := Zpos (digits2_pos mr)) in *.
    assert (0 < dw) by (unfold dw; lia). assert (0 < dr) by (unfold dr; lia).
    (* r < 1: its exponent is negative and its mantissa below 2^-er *)
    assert (Her : er <= -52 /\ Zpos mr <= 2 ^ (- er)).
    { unfold SFltb, SFcompare in H1.
      destruct (Z.compare_spec er (-52)) as [E | L | G]; try discriminate.
      - subst er. split; [lia |]. change (2 ^ (- -52)) with 4503599627370496.
        destruct (compare_cont_Eq_spec mr 4503599627370496) as [E | L | G];
          try discriminate H1.
        apply Z.lt_le_incl, Pos2Z.pos_lt_pos, L.
      - split; [lia |].
        assert (2 ^ dr <= 2 ^ (- er)) by (apply Z.pow_le_mono_r; lia). lia. }
    destruct Her as [Her Hmr].
    apply round_aux_below.
    + exact Hw.
    + rewrite fexp64.
      assert (Hprod : dw + dr - 1 <= Zpos (digits2_pos (mw * mr))).
      { pose proof (digits_ge (mw * mr) ((dw - 1) + (dr - 1)) ltac:(lia)) as Hd.
        rewrite Z.pow_add_r in Hd by lia. rewrite Pos2Z.inj_mul in Hd.
        assert (2 ^ (dw - 1) * 2 ^ (dr - 1) <= Zpos mw * Zpos mr)
          by (apply Z.mul_le_mono_nonneg; lia).
        lia. }
      lia.
    + lia.
    + replace (ew - (ew + er)) with (- er) by lia. rewrite Pos2Z.inj_mul.
      nia.
Qed.

(** A number of the format rounds to itself. *)
Lemma round_aux_exact (s : bool) (m : positive) (e : Z) :
  bounded prec emax m e = true ->
  binary_round_aux prec emax s (Zpos m) e loc_Exact = S754_finite s m e.
Proof.
  intros Hb. destruct (bounded_inv m e Hb) as [Hc He].
  unfold binary_round_aux, shr_fexp. cbn [Zdigits2 shr_record_of_loc].
  rewrite fexp64, Hc, Z.sub_diag. cbn [shr shr_m loc_of_shr_record
    round_nearest_even Zdigits2 shr_record_of_loc].
  rewrite fexp64, Hc, Z.sub_diag. cbn [shr shr_m].
  replace (e <=? emax - prec) with true
    by (symmetry; apply Z.leb_le; change (emax - prec) with 971; lia).
  reflexivity.
Qed.

Lemma SFsub_opp_round (m : positive) (e : Z) :
  SFsub prec emax (S754_finite false m e) (S754_finite true m e) =
  binary_round prec emax false m~0 e.
Proof.
  cbn [SFsub]. rewrite Z.min_id. unfold shl_align. rewrite Z.sub_diag.
  cbn [fst cond_Zopp Z.opp Z.sub Z.add]. rewrite Pos.add_diag.
  reflexivity.
Qed.

(** [M - (-M)]: twice [M], or an infinity when that is too large. *)
Lemma SFsub_double (m : positive) (e : Z) :
  bounded prec emax m e = true ->
  let W := SFsub prec emax (S754_finite false m e) (S754_finite true m e) in
  W = S754_infinity false \/
  exists mw ew,
    W = S754_finite false mw ew /\ e <= ew /\
    forall c, c <= e -> Zpos mw * 2 ^ (ew - c) = 2 * Zpos m * 2 ^ (e - c).
Proof.
  intros Hb W. destruct (bounded_inv m e Hb) as [Hc He].
  destruct (digits_bounds m) as [Hlo Hhi].
  unfold W. clear W. rewrite SFsub_opp_round.
  unfold binary_round. cbn [digits2_pos]. rewrite Pos2Z.inj_succ, fexp64.
  set (d := Zpos (digits2_pos m)) in *.
  assert (Hd : 0 < d) by (unfold d; lia).
  destruct (Z_le_gt_dec d 52) as [Hsub | Hnorm].
  - (* subnormal: the mantissa doubles *)
    assert (Ee : e = -1074) by lia.
    replace (Z.max (Z.succ d + e - 53) (-1074)) with e by lia.
    unfold shl_align. rewrite Z.sub_diag. cbv beta iota.
    assert (Hb2 : bounded prec emax m~0 e = true).
    { unfold bounded, canonical_mantissa. cbn [digits2_pos].
      rewrite Pos2Z.inj_succ, fexp64. fold d.
      apply andb_true_iff. split; [apply Z.eqb_eq | apply Z.leb_le].
      - lia.
      - change (emax - prec) with 971. lia. }
    rewrite (round_aux_exact false (m~0) e Hb2).
    right. exists (m~0)%positive, e. split; [reflexivity |]. split; [lia |].
    intros c Hcle. rewrite Pos2Z.inj_xO. lia.
  - (* normal: the exponent goes up by one *)
    assert (Ed : d = 53) by lia.
    replace (Z.max (Z.succ d + e - 53) (-1074)) with (e + 1) by lia.
    unfold shl_align. replace (e + 1 - e) with 1 by lia. cbv beta iota.
    assert (E : binary_round_aux prec emax false (Zpos m~0) e loc_Exact =
                if e + 1 <=? emax - prec then S754_finite false m (e + 1)
                else S754_infinity false).
    { unfold binary_round_aux, shr_fexp.
      cbn [Zdigits2 digits2_pos shr_record_of_loc].
      rewrite Pos2Z.inj_succ, fexp64. fold d.
      replace (Z.max (Z.succ d + e - 53) (-1074) - e) with 1 by lia.
      cbn [shr iter_pos shr_1 shr_m loc_of_shr_record round_nearest_even
           Zdigits2 shr_record_of_loc orb].
      rewrite fexp64. fold d.
      replace (Z.max (d + (e + 1) - 53) (-1074) - (e + 1)) with 0 by lia.
      reflexivity. }
    rewrite E.
    destruct (Z.leb_spec (e + 1) (emax - prec)) as [Hle | Hgt].
    + right. exists m, (e + 1). split; [reflexivity |]. split; [lia |].
      intros c Hcle. replace (e + 1 - c) with (Z.succ (e - c)) by lia.
      rewrite Z.pow_succ_r by lia. lia.
    + left. reflexivity.
Qed.

Lemma below_within (s : bool) (y : spec_float) (m : positive) (e : Z) :
  below s y m e -> within m e y.
Proof. destruct y; cbn; tauto. Qed.

(** [-M + p] stays within [M] when [0 <= p <= 2 M]. *)
Lemma SFadd_neg_within (m : positive) (e : Z) (P : spec_float) :
  bounded prec emax m e = true ->
  match P with
  | S754_zero _ => True
  | S754_finite false mp ep =>
      Zpos mp * 2 ^ (ep - Z.min e ep) <= 2 * Zpos m * 2 ^ (e - Z.min e ep)
  | _ => False
  end ->
  within m e (SFadd prec emax (S754_finite true m e) P).
Proof.
  intros Hb HP. destruct P as [s | s | | s mp ep]; try contradiction.
  - cbn [SFadd within]. right. split; [reflexivity | lia].
  - destruct s; [contradiction |]. cbn [SFadd].
    set (ez := Z.min e ep) in *.
    destruct (shl_align_spec m e ez ltac:(unfold ez; lia)) as (HA & _ & _).
    destruct (shl_align_spec mp ep ez ltac:(unfold ez; lia)) as (HB & _ & _).
    set (a := fst (shl_align m e ez)) in *.
    set (b := fst (shl_align mp ep ez)) in *.
    cbn [cond_Zopp Z.opp].
    destruct (Z.neg a + Z.pos b) as [| k | k] eqn:Ek; cbn [binary_normalize].
    + exact I.
    + apply (below_within false). apply round_below.
      * exact Hb.
      * unfold ez. lia.
      * lia.
    + apply (below_within true). apply round_below.
      * exact Hb.
      * unfold ez. lia.
      * lia.
Qed.

(** What [within] says with the comparison of the format. *)
Lemma within_leb (m : positive) (e : Z) (y : spec_float) :
  within m e y ->
  SFleb (S754_finite true m e) y = true /\
  SFleb y (S754_finite false m e) = true.
Proof.
  destruct y as [s | s | | s my ey]; cbn [within]; try contradiction.
  - intros _. split; reflexivity.
  - intros Hle. unfold SFleb, SFcompare.
    destruct s.
    + split; [| reflexivity]. destruct Hle as [Hlt | [-> Hm]].
      * apply Z.compare_gt_iff in Hlt. rewrite Hlt. reflexivity.
      * rewrite Z.compare_refl.
        destruct (compare_cont_Eq_spec m my) as [E | L | G];
          try reflexivity. exfalso. apply Pos2Z.pos_lt_pos in L. lia.
    + split; [reflexivity |]. destruct Hle as [Hlt | [-> Hm]].
      * apply Z.compare_lt_iff in Hlt. rewrite Hlt. reflexivity.
      * rewrite Z.compare_refl.
        destruct (compare_cont_Eq_spec my m) as [E | L | G];
          try reflexivity. exfalso. apply Pos2Z.pos_lt_pos in G. lia.
Qed.

(** A positive number whose double is finite is a finite positive
    number of the format. *)
Lemma positive_finite_inv (M : float) :
  (0 <? M)%float = true -> (M - - M <? infinity)%float = true ->
  exists m e, Prim2SF M = S754_finite false m e /\
              bounded prec emax m e = true.
Proof.
  intros H0 HW. pose proof (Prim2SF_valid M) as HV.
  rewrite FloatAxioms.ltb_spec in H0, HW.
  rewrite FloatAxioms.sub_spec, FloatAxioms.opp_spec in HW.
  unfold SF64sub in HW.
  replace (Prim2SF 0) with (S754_zero false) in H0
    by (vm_compute; reflexivity).
  replace (Prim2SF infinity) with (S754_infinity false) in HW
    by (vm_compute; reflexivity).
  destruct (Prim2SF M) as [s | s | | s m e].
  - discriminate H0.
  - destruct s; [discriminate H0 | discriminate HW].
  - discriminate H0.
  - destruct s; [discriminate H0 |]. exists m, e. split; [reflexivity |].
    exact HV.
Qed.

(** [random.uniform(-M, M)] on a draw [r] of [[0, 1)]: the value
    [-M + (M - (-M)) * r] lies in [[-M, M]] when [M] is positive and
    [M - (-M)] is finite. *)
Lemma uniform_bounds (M r : float) :
  (0 <? M)%float = true -> (M - - M <? infinity)%float = true ->
  (0 <=? r)%float = true -> (r <? 1)%float = true ->
  (- M <=? - M + (M - - M) * r)%float = true /\
  (- M + (M - - M) * r <=? M)%float = true.
Proof.
  intros H0 HW Hr0 Hr1.
  destruct (positive_finite_inv M H0 HW) as (m & e & EM & Hb).
  pose proof (Prim2SF_valid (M - - M)) as HVW.
  pose proof (Prim2SF_valid ((M - - M) * r)) as HVP.
  pose proof (Prim2SF_valid r) as HVR.
  rewrite FloatAxioms.mul_spec in HVP.
  rewrite FloatAxioms.ltb_spec in HW, Hr1.
  rewrite FloatAxioms.leb_spec in Hr0.
  rewrite !FloatAxioms.leb_spec, FloatAxioms.add_spec, FloatAxioms.mul_spec.
  rewrite FloatAxioms.sub_spec, FloatAxioms.opp_spec in *.
  rewrite EM in *. cbn [SFopp negb] in *.
  unfold SF64add, SF64sub, SF64mul in *.
  replace (Prim2SF 0) with (S754_zero false) in Hr0
    by (vm_compute; reflexivity).
  replace (Prim2SF 1) with (S754_finite false 4503599627370496 (-52)) in Hr1
    by (vm_compute; reflexivity).
  replace (Prim2SF infinity) with (S754_infinity false) in HW
    by (vm_compute; reflexivity).
  destruct (SFsub_double m e Hb) as [EW | (mw & ew & EW & Hew & Hval)];
    cbv zeta in EW; rewrite EW in *; [discriminate HW |].
  pose proof (SFmul_below mw ew (Prim2SF r) HVW HVR Hr0 Hr1) as HP.
  apply within_leb. apply SFadd_neg_within; [exact Hb |].
  destruct (SFmul prec emax (S754_finite false mw ew) (Prim2SF r))
    as [s | s | | s mp ep]; cbn [below] in HP; try contradiction.
  - exact I.
  - destruct HP as [-> Hle].
    rewrite <- (Hval (Z.min e ep)) by lia.
    apply le_mag_value; try assumption; lia.
Qed.

End Rounding.

(** A step lies in [[-M, M]]: in binary64, for a positive [M] whose
    double is finite and a draw of [[0.0, 1.0)]. *)
Lemma step_of_bounds (M : float) (g : rng float) (k : nat) :
  (0 <? M)%float = true -> (M - - M <? infinity)%float = true ->
  unit_draws_b64 g ->
  (- M <=? step_of M g k)%float = true /\
  (step_of M g k <=? M)%float = true.
Proof.
  intros HM HW Hg. destruct (Hg (cursor g + k)%nat) as [H0 H1].
  unfold step_of. cbn [fadd fsub fmul fneg binary64].
  exact (uniform_bounds M (draws g (cursor g + k)) HM HW H0 H1).
Qed.

(** The upper end [M] is reached: with the smallest positive [M] and a
    draw of 0.75 the product [2 M * 0.75] rounds up to [2 M]. *)
Example step_of_reaches_max_step :
  let M := 0x1p-1074%float in
  let g := mkRng (fun _ => 0.75%float) 0 in
  (0 <? M)%float = true /\ (M - - M <? infinity)%float = true /\
  unit_draws_b64 g /\ (step_of M g 0 =? M)%float = true.
Proof.
  cbv zeta. split; [reflexivity |]. split; [reflexivity |]. split.
  - intros k. split; reflexivity.
  - reflexivity.
Qed.

(** When [M - (-M)] overflows, a step is an infinity, or not a number
    on the draw 0.0. *)
Example step_of_overflow :
  let M := 0x1.1ccf385ebc8ap+1023%float in
  (0 <? M)%float = true /\ (M - - M <? infinity)%float = false /\
  (step_of M (mkRng (fun _ => 0.5%float) 0) 0 =? infinity)%float = true /\
  is_nan (step_of M (mkRng (fun _ => 0%float) 0) 0) = true.
Proof. cbv zeta. repeat split; reflexivity. Qed.

(** C2 (as stated, refuted).  With [N = 2], [M = 1] and draws of 0.0
    the second point is the first one minus exactly [M] on both axes:
    the differences are [-M], not strictly inside [(-M, M)].  With the
    start [(30.0444, 31.2357)], [M = 0.0008] and the draws
    [1 - 2 ^ -53] and 0.0, the addition to the coordinate rounds and
    the differences of the stored points are
    [0.00080000000000168825] and [-0.00080000000000168825], outside
    [[-M, M]]. *)
Lemma open_interval_counterexample :
  (let g := mkRng (fun _ => 0%float) 0 in
   let path := fst (generate_random_path 0%float 0%float 2 1%float g) in
   (0 <? 1)%float = true /\ unit_draws_b64 g /\
   consecutive path 0 (0%float, 0%float) ((-1)%float, (-1)%float) /\
   ~ within_open_b64 1%float (0%float, 0%float) ((-1)%float, (-1)%float)) /\
  (let M := 0.0008%float in
   let g := mkRng (fun k => if Nat.even k then 0x1.fffffffffffffp-1%float
                            else 0%float) 0 in
   let path := fst (generate_random_path 30.0444%float 31.2357%float 2 M g) in
   (0 <? M)%float = true /\ unit_draws_b64 g /\
   exists p q, consecutive path 0 p q /\
     (fst q - fst p <=? M)%float = false /\
     (- M <=? snd q - snd p)%float = false).
Proof.
  split.
  - cbv zeta. split; [reflexivity |]. split.
    + intros k. split; reflexivity.
    + split.
      * split; vm_compute; reflexivity.
      * unfold within_open_b64. vm_compute. discriminate.
  - cbv zeta. split; [reflexivity |]. split.
    + intros k. cbn [draws]. destruct (Nat.even k); split; reflexivity.
    + eexists. eexists. split.
      * split; vm_compute; reflexivity.
      * split; vm_compute; reflexivity.
Qed.

(** Every point after the first is the previous one plus one step
    per axis, the latitude step on draw [2 i] and the longitude step
    on draw [2 i + 1]: in any arithmetic. *)
Lemma generate_random_path_consecutive {F : Type} `{Arith F}
    (lat lon : F) (N : Z) (M : F) (g : rng F) (i : nat) (p q : coord F) :
  consecutive (fst (generate_random_path lat lon N M g)) i p q ->
  q = (fadd (fst p) (step_of M g (2 * i)),
       fadd (snd p) (step_of M g (2 * i + 1))).
Proof.
  intros Hc. destruct g as [d c].
  rewrite generate_random_path_points in Hc.
  apply points_consecutive in Hc. rewrite Hc. unfold step_of.
  cbn [cursor draws]. rewrite !Nat.add_0_l, Nat.add_assoc. reflexivity.
Qed.

(** C2 (amended): in binary64, with a max step [M > 0] whose double
    [M - (-M)] is finite and draws in [[0.0, 1.0)], every point after
    the first is the previous point plus one step per axis (the
    addition rounds), the latitude step on draw [2 i] and the
    longitude step on draw [2 i + 1], and both steps
    [-M + (M - (-M)) * r] lie in the closed interval [[-M, M]]. *)
Theorem steps_within_max_step (lat lon : float) (N : Z) (M : float)
    (g : rng float) (i : nat) (p q : coord float) :
  (0 <? M)%float = true -> (M - - M <? infinity)%float = true ->
  unit_draws_b64 g ->
  consecutive (fst (generate_random_path lat lon N M g)) i p q ->
  q = (fst p + step_of M g (2 * i),
       snd p + step_of M g (2 * i + 1))%float /\
  (- M <=? step_of M g (2 * i))%float = true /\
  (step_of M g (2 * i) <=? M)%float = true /\
  (- M <=? step_of M g (2 * i + 1))%float = true /\
  (step_of M g (2 * i + 1) <=? M)%float = true.
Proof.
  intros HM HW Hg Hc.
  split; [exact (generate_random_path_consecutive lat lon N M g Hc) |].
  destruct (@step_of_bounds M g (2 * i) HM HW Hg) as [Ha Hb].
  destruct (@step_of_bounds M g (2 * i + 1) HM HW Hg) as [Ha' Hb'].
  repeat split; assumption.
Qed.

(** C2 on a walk of three points from the Eiffel Tower with steps of
    at most 0.0008: the second and the third point. *)
Lemma steps_within_max_step_witness :
  let M := 0.0008%float in
  let g := mkRng (fun _ => 0.5%float) 0 in
  let path := fst (generate_random_path 48.8584%float 2.2945%float 3 M g) in
  let p := nth 1 path (0%float, 0%float) in
  let q := nth 2 path (0%float, 0%float) in
  (0 <? M)%float = true /\ (M - - M <? infinity)%float = true /\
  unit_draws_b64 g /\ consecutive path 1 p q /\
  q = (fst p + step_of M g 2, snd p + step_of M g 3)%float /\
  (- M <=? step_of M g 2)%float = true /\
  (step_of M g 2 <=? M)%float = true /\
  (- M <=? step_of M g 3)%float = true /\
  (step_of M g 3 <=? M)%float = true.
Proof.
  intros M g path p q.
  assert (HM : (0 <? M)%float = true) by reflexivity.
  assert (HW : (M - - M <? infinity)%float = true) by reflexivity.
  assert (Hg : unit_draws_b64 g) by (intros k; split; reflexivity).
  assert (Hc : consecutive path 1 p q) by (split; reflexivity).
  split; [exact HM |]. split; [exact HW |]. split; [exact Hg |].
  split; [exact Hc |].
  exact (@steps_within_max_step 48.8584%float 2.2945%float 3%Z M g 1%nat p q
           HM HW Hg Hc).
Defined.

(** ** The degenerate walks *)

Section Degenerate.

Context {F : Type} `{Arith F}.

(** With [num_points <= 1] the loop body never runs: the path is the
    start coordinate alone and no draw is consumed. *)
Lemma generate_random_path_no_iteration (lat lon : F) (N : Z) (M : F)
    (g : rng F) :
  (N <= 1)%Z -> generate_random_path lat lon N M g = ([(lat, lon)], g).
Proof.
  intros HN. unfold generate_random_path, range_len.
  replace (Z.to_nat (N - 1)) with 0%nat by lia. reflexivity.
Qed.

End Degenerate.

(** *** Binary64 facts for a zero step *)

Lemma eqb_zero_inv (M : float) :
  (M =? 0)%float = true -> exists s, Prim2SF M = S754_zero s.
Proof.
  rewrite FloatAxioms.eqb_spec.
  replace (Prim2SF 0) with (S754_zero false) by (vm_compute; reflexivity).
  destruct (Prim2SF M) as [s|s| |s m e]; cbn; try discriminate.
  - intros _. now exists s.
  - destruct s; discriminate.
  - destruct s; discriminate.
Qed.

(** A draw in [[0, 1)] is a zero or a positive finite number. *)
Lemma unit_draw_inv (r : float) :
  (0 <=? r)%float = true -> (r <? 1)%float = true ->
  (exists s, Prim2SF r = S754_zero s) \/
  (exists m e, Prim2SF r = S754_finite false m e).
Proof.
  rewrite FloatAxioms.leb_spec, FloatAxioms.ltb_spec.
  replace (Prim2SF 0) with (S754_zero false) by (vm_compute; reflexivity).
  replace (Prim2SF 1) with (S754_finite false 4503599627370496 (-52))
    by (vm_compute; reflexivity).
  destruct (Prim2SF r) as [s|s| |s m e]; unfold SFleb, SFltb, SFcompare.
  - intros _ _. left. now exists s.
  - destruct s; discriminate.
  - discriminate.
  - destruct s; [discriminate |]. intros _ _. right. now exists m, e.
Qed.

(** With [M] a zero, [uniform(-M, M)] is a zero whatever the draw. *)
Lemma step_of_zero (M : float) (g : rng float) (k : nat) :
  (M =? 0)%float = true -> unit_draws_b64 g ->
  exists s, Prim2SF (step_of M g k) = S754_zero s.
Proof.
  intros HM Hg. destruct (eqb_zero_inv HM) as [s Hs].
  destruct (Hg (cursor g + k)%nat) as [H0 H1].
  unfold step_of. cbn [fadd fsub fmul fneg binary64].
  rewrite FloatAxioms.add_spec, FloatAxioms.mul_spec, FloatAxioms.sub_spec,
    FloatAxioms.opp_spec.
  destruct (unit_draw_inv H0 H1) as [[t Ht] | (m & e & Ht)];
    rewrite Hs, Ht; destruct s; try destruct t; cbn; eexists; reflexivity.
Qed.

Lemma SFcompare_zero_l (s : bool) (y : spec_float) :
  SFeqb (S754_zero s) y = true -> exists t, y = S754_zero t.
Proof.
  destruct y as [t|t| |t m e]; cbn; try discriminate.
  - intros _. now exists t.
  - destruct t; discriminate.
  - destruct t; discriminate.
Qed.

(** Adding a zero keeps a number equal (as [==] has it) to what it was
    equal to. *)
Lemma add_zero_eqb (x z y : float) :
  (exists s, Prim2SF z = S754_zero s) ->
  (x =? y)%float = true -> (x + z =? y)%float = true.
Proof.
  intros [s Hz]. rewrite !FloatAxioms.eqb_spec, FloatAxioms.add_spec, Hz.
  destruct (Prim2SF x) as [t|t| |t m e]; try destruct t; destruct s;
    intros Hxy; exact Hxy.
Qed.

Lemma points_zero_step (M : float) (g : rng float) (lat lon : float) :
  (M =? 0)%float = true -> unit_draws_b64 g ->
  forall n lat' lon' k p,
    (lat' =? lat)%float = true -> (lon' =? lon)%float = true ->
    In p (points n M lat' lon' g k) ->
    (fst p =? lat)%float = true /\ (snd p =? lon)%float = true.
Proof.
  intros HM Hg. induction n as [|n IH]; intros lat' lon' k p Hlat Hlon Hin.
  - destruct Hin.
  - cbn [points] in Hin.
    assert (Hlat' : (fadd lat' (step_of M g k) =? lat)%float = true)
      by (apply add_zero_eqb; [now apply step_of_zero | exact Hlat]).
    assert (Hlon' : (fadd lon' (step_of M g (S k)) =? lon)%float = true)
      by (apply add_zero_eqb; [now apply step_of_zero | exact Hlon]).
    destruct Hin as [<- | Hin].
    + split; assumption.
    + exact (IH _ _ _ _ Hlat' Hlon' Hin).
Qed.

(** C8: with max step [M = 0] (either zero of binary64), draws in
    [[0.0, 1.0)] and a start coordinate that is a number, every point
    of the path equals the start coordinate, for every point count. *)
Theorem zero_step_degenerate (lat lon : float) (N : Z) (M : float)
    (g : rng float) :
  (M =? 0)%float = true -> unit_draws_b64 g ->
  is_nan lat = false -> is_nan lon = false ->
  forall p, In p (fst (generate_random_path lat lon N M g)) ->
    (fst p =? lat)%float = true /\ (snd p =? lon)%float = true.
Proof.
  intros HM Hg Hlat Hlon p Hin. destruct g as [d c].
  unfold is_nan in Hlat, Hlon.
  apply negb_false_iff in Hlat. apply negb_false_iff in Hlon.
  rewrite generate_random_path_points in Hin. destruct Hin as [<- | Hin].
  - split; assumption.
  - apply (@points_zero_step M (mkRng d 0) lat lon HM Hg _ lat lon c p
             Hlat Hlon Hin).
Qed.

(** C8 at the Eiffel Tower with 100 points: the last point still
    equals the start. *)
Lemma zero_step_degenerate_witness :
  let g := mkRng (fun _ => 0.5%float) 0 in
  let path := fst (generate_random_path 48.8584%float 2.2945%float 100
                     0%float g) in
  let p := nth 99 path (0%float, 0%float) in
  (0 =? 0)%float = true /\ unit_draws_b64 g /\
  is_nan 48.8584%float = false /\ is_nan 2.2945%float = false /\
  In p path /\
  (fst p =? 48.8584)%float = true /\ (snd p =? 2.2945)%float = true.
Proof.
  intros g path p.
  assert (HM : (0 =? 0)%float = true) by reflexivity.
  assert (Hg : unit_draws_b64 g) by (intros k; split; reflexivity).
  assert (Hlat : is_nan 48.8584%float = false) by reflexivity.
  assert (Hlon : is_nan 2.2945%float = false) by reflexivity.
  assert (Hin : In p path).
  { apply nth_In. vm_compute. lia. }
  do 5 (split; [assumption |]).
  exact (@zero_step_degenerate 48.8584%float 2.2945%float 100 0%float g
           HM Hg Hlat Hlon p Hin).
Defined.

(** ** Calling the generator from the script *)

Lemma call_generate_random_path_eq (lat lon : float) (N : Z) (M : float)
    (w : world) :
  call_generate_random_path lat lon N M w =
  (Ret (fst (generate_random_path lat lon N M (w_rng w))),
   mkWorld (snd (generate_random_path lat lon N M (w_rng w)))
     (w_log w ++ [(c_generate_random_path lat lon N M, None)])).
Proof.
  unfold call_generate_random_path.
  destruct (generate_random_path lat lon N M (w_rng w)). reflexivity.
Qed.

(** C3 (as stated, refuted): called with [num_points = -1] the
    generator raises nothing; it returns the path made of the start
    coordinate. *)
Lemma negative_count_counterexample :
  let w := mkWorld (mkRng (fun _ => 0.5%float) 0) [] in
  let out := call_generate_random_path 48.8584%float 2.2945%float (-1)
               0.0008%float w in
  (-1 < 0)%Z /\
  fst out = Ret [(48.8584%float, 2.2945%float)] /\
  ~ (exists e, fst out = Raise e).
Proof.
  cbv zeta. split; [lia |]. split; [reflexivity |].
  intros [e He]. discriminate He.
Qed.

(** C3 (amended): for every negative point count the call returns,
    without an error, the one-point path of the start coordinate, and
    the generator state is left as it was. *)
Theorem negative_count_returns_start (lat lon : float) (N : Z) (M : float)
    (w : world) :
  (N < 0)%Z ->
  call_generate_random_path lat lon N M w =
  (Ret [(lat, lon)],
   mkWorld (w_rng w) (w_log w ++ [(c_generate_random_path lat lon N M, None)])).
Proof.
  intros HN. rewrite call_generate_random_path_eq.
  rewrite generate_random_path_no_iteration by lia. reflexivity.
Qed.

Lemma negative_count_returns_start_witness :
  let w := mkWorld (mkRng (fun _ => 0.5%float) 0) [] in
  (-5 < 0)%Z /\
  call_generate_random_path 48.8584%float 2.2945%float (-5) 0.0008%float w =
  (Ret [(48.8584%float, 2.2945%float)],
   mkWorld (w_rng w)
     (w_log w ++
      [(c_generate_random_path 48.8584%float 2.2945%float (-5) 0.0008%float,
        None)])).
Proof.
  intros w. split; [lia |].
  apply (@negative_count_returns_start 48.8584%float 2.2945%float (-5)
           0.0008%float w).
  lia.
Defined.

(** C10: for every integer [num_points] the call returns a path and
    raises nothing; for [num_points <= 1] (zero and the negative
    numbers included) the path is the start coordinate alone. *)
Theorem generate_random_path_total (lat lon : float) (N : Z) (M : float)
    (w : world) :
  (exists path w', call_generate_random_path lat lon N M w = (Ret path, w')) /\
  ((N <= 1)%Z ->
   fst (call_generate_random_path lat lon N M w) = Ret [(lat, lon)]).
Proof.
  rewrite call_generate_random_path_eq. split.
  - eexists. eexists. reflexivity.
  - intros HN. rewrite generate_random_path_no_iteration by exact HN.
    reflexivity.
Qed.

(** * Properties of the orchestrator *)

(** ** Running the script symbolically *)

Lemma getitem_first {A} (x : A) (l : list A) (w : world) :
  getitem (x :: l) 0 w = (Ret x, w).
Proof. reflexivity. Qed.

Lemma last_cons_default {A} (l : list A) :
  forall z x y : A, last (z :: l) x = last (z :: l) y.
Proof.
  induction l as [|a l IH]; intros z x y; [reflexivity |].
  change (last (a :: l) x = last (a :: l) y). apply IH.
Qed.

Lemma nth_error_last {A} (l : list A) :
  forall x : A, nth_error (x :: l) (length l) = Some (last (x :: l) x).
Proof.
  induction l as [|y l IH]; intros x; [reflexivity |].
  change (nth_error (y :: l) (length l) = Some (last (y :: l) x)).
  rewrite IH. f_equal. apply last_cons_default.
Qed.

Lemma getitem_last {A} (x : A) (l : list A) (w : world) :
  getitem (x :: l) (-1) w = (Ret (last (x :: l) x), w).
Proof.
  unfold getitem. change (-1 <? 0)%Z with true. cbv iota.
  replace (-1 + Z.of_nat (length (x :: l)))%Z with (Z.of_nat (length l))
    by (cbn [length]; lia).
  destruct (Z.of_nat (length l) <? 0)%Z eqn:E; [apply Z.ltb_lt in E; lia |].
  rewrite Nat2Z.id, nth_error_last. reflexivity.
Qed.

(** The generated path starts with the start coordinate. *)
Lemma generate_random_path_cons (lat lon : float) (N : Z) (M : float)
    (g : rng float) :
  exists rest, fst (generate_random_path lat lon N M g) = (lat, lon) :: rest.
Proof.
  destruct g as [d c]. rewrite generate_random_path_points.
  eexists. reflexivity.
Qed.

Lemma bind_bind {A B C} (m : Py A) (k : A -> Py B) (h : B -> Py C)
    (w : world) :
  bind (bind m k) h w = bind m (fun x => bind (k x) h) w.
Proof. unfold bind. destruct (m w) as [[a | e] w']; reflexivity. Qed.

Lemma ret_bind {A B} (a : A) (k : A -> Py B) (w : world) :
  bind (ret a) k w = k a w.
Proof. reflexivity. Qed.

Section Runs.

Variable ext : externals.

Lemma external_bind {B} (c : call) (k : unit -> Py B) (w : world) :
  bind (external ext c) k w =
  match ext_raises ext c with
  | None => k tt (logged w c None)
  | Some e => (Raise e, logged w c (Some e))
  end.
Proof. unfold bind, external. destruct (ext_raises ext c); reflexivity. Qed.

Lemma external_run (c : call) (w : world) :
  external ext c w =
  match ext_raises ext c with
  | None => (Ret tt, logged w c None)
  | Some e => (Raise e, logged w c (Some e))
  end.
Proof. reflexivity. Qed.

Lemma print_bind {B} (line : string) (k : unit -> Py B) (w : world) :
  bind (print line) k w = k tt (logged w (c_print line) None).
Proof. reflexivity. Qed.

End Runs.

(** C6: when the line typed at the prompt is blank after [strip()],
    the script prints the notice and ends normally; the log holds the
    prompt and the notice only, hence no geocoder call and no save. *)
Theorem blank_input_exits (ext : externals) (g : rng float) :
  ext_raises ext (c_input prompt) = None ->
  strip (ext_line ext) = EmptyString ->
  run_script ext g =
    (ExitNormally,
     [(c_input prompt, None);
      (c_print "No location entered. Exiting program.", None)]) /\
  filter is_geocode (snd (run_script ext g)) = [] /\
  filter is_save (snd (run_script ext g)) = [].
Proof.
  intros Hin Hblank.
  assert (Hrun : run_script ext g =
    (ExitNormally,
     [(c_input prompt, None);
      (c_print "No location entered. Exiting program.", None)])).
  { unfold run_script, main, input.
    rewrite bind_bind, external_bind, Hin, ret_bind, Hblank. reflexivity. }
  rewrite Hrun. repeat split.
Qed.

Lemma call_generate_random_path_bind {B} (lat lon : float) (N : Z)
    (M : float) (k : list (coord float) -> Py B) (w : world) :
  bind (call_generate_random_path lat lon N M) k w =
  k (fst (generate_random_path lat lon N M (w_rng w)))
    (mkWorld (snd (generate_random_path lat lon N M (w_rng w)))
       (w_log w ++ [(c_generate_random_path lat lon N M, None)])).
Proof. unfold bind. now rewrite call_generate_random_path_eq. Qed.

Lemma getitem_first_bind {A B} (x : A) (l : list A) (k : A -> Py B)
    (w : world) :
  bind (getitem (x :: l) 0) k w = k x w.
Proof. reflexivity. Qed.

Lemma getitem_last_bind {A B} (x : A) (l : list A) (k : A -> Py B)
    (w : world) :
  bind (getitem (x :: l) (-1)) k w = k (last (x :: l) x) w.
Proof. unfold bind. now rewrite getitem_last. Qed.

(** One statement of the script at a time: the binds are
    re-associated, a print is logged, a call out asks the world. *)
Ltac run_step :=
  first
    [ rewrite bind_bind
    | rewrite print_bind
    | rewrite ret_bind
    | rewrite external_bind
    | rewrite external_run
    | rewrite call_generate_random_path_bind
    | rewrite getitem_first_bind
    | rewrite getitem_last_bind ].

Ltac run_to_call := repeat run_step; cbn [logged w_rng w_log].

(** One goal per way the outside world can answer the calls that are
    left. *)
Ltac run_cases rest :=
  repeat
    (match goal with
     | |- context [fst (generate_random_path ?a ?b ?n ?m ?g)] =>
         let H := fresh "Hpath" in
         destruct (generate_random_path_cons a b n m g) as [rest H];
         rewrite !H
     | |- context [match ext_raises ?e ?c with _ => _ end] =>
         let E := fresh "E" in destruct (ext_raises e c) eqn:E
     | |- context [match ext_location ?e ?q with _ => _ end] =>
         let L := fresh "L" in
         destruct (ext_location e q) as [[? ?] |] eqn:L
     | |- context [if isinstance_Exception ?x then _ else _] =>
         destruct x; cbn [isinstance_Exception]
     end;
     run_to_call).

(** The log of a finished run, as the old log and the new entries. *)
Ltac run_done :=
  unfold print, ret, logged; cbn [fst snd w_rng w_log];
  rewrite <- ?app_assoc; cbn [app].

Ltac run_start :=
  unfold create_tracking_map, tracking_body, Nominatim, geocode;
  rewrite print_bind; unfold try_except_Exception;
  run_to_call.

(** The whole of [create_tracking_map]. *)
Ltac run_create_tracking_map rest := run_start; run_cases rest; run_done.

Lemma suffix_here {A} (s : list A) : exists before, s = before ++ s.
Proof. now exists []. Qed.

Lemma suffix_cons {A} (x : A) (l s : list A) :
  (exists before, l = before ++ s) -> exists before, x :: l = before ++ s.
Proof. intros [b ->]. now exists (x :: b). Qed.

Ltac find_suffix :=
  solve [repeat first [apply suffix_here | apply suffix_cons]].


(** ** What an exception does to the run *)

Ltac in_log Hin :=
  cbn [In] in Hin;
  repeat match type of Hin with
         | _ \/ _ => destruct Hin as [Hin | Hin]
         end;
  try contradiction Hin.

(** *** The two consoles

    The script reads its [print] pointwise: two consoles that answer
    alike give the same run.  On a console whose writes all return,
    the process is the one [run_script] describes. *)

Lemma bind_pointwise {A B} (m m' : Py A) (k k' : A -> Py B) :
  (forall w, m w = m' w) -> (forall a w, k a w = k' a w) ->
  forall w, bind m k w = bind m' k' w.
Proof.
  intros Hm Hk w. unfold bind. rewrite Hm.
  destruct (m' w) as [[a | e] w']; [apply Hk | reflexivity].
Qed.

Lemma try_except_Exception_pointwise {A} (b b' : Py A) (h h' : exn -> Py A) :
  (forall w, b w = b' w) -> (forall e w, h e w = h' e w) ->
  forall w, try_except_Exception b h w = try_except_Exception b' h' w.
Proof.
  intros Hb Hh w. unfold try_except_Exception. rewrite Hb.
  destruct (b' w) as [[a | e] w']; [reflexivity |].
  destruct (isinstance_Exception e); [apply Hh | reflexivity].
Qed.

(** One statement of the script: a [print], or a call that is the same
    on both sides. *)
Ltac same_statement H :=
  apply bind_pointwise; [first [apply H | intros; exact eq_refl] | intros].

Lemma main_on_pointwise (ext : externals) (pr pr' : string -> Py unit) :
  (forall line w, pr line w = pr' line w) ->
  forall w, main_on ext pr w = main_on ext pr' w.
Proof.
  intros H. unfold main_on. same_statement H.
  destruct (str_bool (strip a)); [| apply H].
  unfold create_tracking_map_on. same_statement H.
  apply try_except_Exception_pointwise.
  - unfold tracking_body_on. do 2 same_statement H.
    match goal with
    | location : option (coord float) |- _ =>
        destruct location as [[start_lat start_lon] |]
    end.
    + do 12 same_statement H. exact eq_refl.
    + same_statement H. exact eq_refl.
  - intros e. same_statement H. apply H.
Qed.

(** With no failing [print], [run_script_console] is [run_script]. *)
Lemma run_script_console_calm (ext : externals) (g : rng float) :
  (forall line, ext_raises ext (c_print line) = None) ->
  run_script_console ext g = run_script ext g.
Proof.
  intros H. unfold run_script_console, run_script.
  change (main ext) with (main_on ext (print)).
  rewrite (@main_on_pointwise ext (print_or_raise ext) print); [reflexivity |].
  intros line w. unfold print_or_raise, external. rewrite H. reflexivity.
Qed.

(** The script on the console that can fail, one goal per way the
    outside world can answer. *)
Ltac run_console :=
  unfold run_script_console, main_on, input, create_tracking_map_on,
    tracking_body_on, print_or_raise, Nominatim, geocode,
    try_except_Exception;
  repeat first
    [ rewrite bind_bind
    | rewrite ret_bind
    | rewrite external_bind
    | rewrite external_run
    | rewrite call_generate_random_path_bind
    | rewrite getitem_first_bind
    | rewrite getitem_last_bind
    | progress cbn [logged w_rng w_log]
    | match goal with
      | |- context [fst (generate_random_path ?a ?b ?n ?m ?g)] =>
          let rest := fresh "rest" in
          let H := fresh "Hpath" in
          destruct (generate_random_path_cons a b n m g) as [rest H];
          rewrite !H
      | |- context [match ext_raises ?e ?c with _ => _ end] =>
          let E := fresh "E" in destruct (ext_raises e c) eqn:E
      | |- context [match ext_location ?e ?q with _ => _ end] =>
          let L := fresh "L" in
          destruct (ext_location e q) as [[? ?] |] eqn:L
      | |- context [if isinstance_Exception ?x then _ else _] =>
          let I := fresh "I" in destruct (isinstance_Exception x) eqn:I
      | |- context [if str_bool ?x then _ else _] =>
          let B := fresh "B" in destruct (str_bool x) eqn:B
      end ];
  unfold ret; cbn [fst snd app logged w_rng w_log].

Ltac pick_handled :=
  first
    [ left; split; reflexivity
    | right; left; eexists; split; reflexivity
    | right; right; eexists; split; reflexivity ].

Ltac pick_escape :=
  unfold escapes;
  first
    [ left; reflexivity
    | right; left; reflexivity
    | right; right; left; reflexivity
    | right; right; right; left; eexists; reflexivity
    | right; right; right; right; left; reflexivity
    | right; right; right; right; right; assumption ].

(** Every run of the script on the console that can fail.  A call of
    the steps that raises is the first call that raises; an instance
    of [Exception] is then handled, anything else ends the process.
    And a process that does not end normally ends on the last call of
    its log, for one of the reasons of [escapes]. *)
Lemma run_script_console_exceptions (ext : externals) (g : rng float) :
  exists ex log,
    run_script_console ext g = (ex, log) /\
    (forall c e, In (c, Some e) log -> is_step_call c = true ->
       first_raise log = Some (c, e) /\
       if isinstance_Exception e
       then handled e (after_raise log) ex
       else after_raise log = [] /\ ex = uncaught e) /\
    (ex <> ExitNormally ->
     exists c e before,
       log = before ++ [(c, Some e)] /\ ex = uncaught e /\ escapes ext c e).
Proof.
  run_console.
  all: eexists; eexists; split; [reflexivity |]; split.
  all: try solve
    [ intros cc ee Hin Hstep; in_log Hin; try discriminate Hin;
      injection Hin as <- <-; cbn [is_step_call] in Hstep;
      try discriminate Hstep;
      (split; [reflexivity |]);
      match goal with I : isinstance_Exception _ = _ |- _ => rewrite I end;
      cbn [after_raise]; first [pick_handled | split; reflexivity] ].
  all: intros Hex; first
    [ contradiction Hex; reflexivity
    | eexists; eexists;
      match goal with
      | |- exists before, ?l = before ++ ?s /\ _ =>
          let H := fresh in
          assert (H : exists before, l = before ++ s) by find_suffix;
          destruct H as [before H]; exists before; split; [exact H |]
      end;
      split; [reflexivity | pick_escape] ].
Qed.

(** C4 (as stated, refuted), twice.  The user interrupts the geocoder
    lookup: [KeyboardInterrupt] is raised during the geocode step, it
    is no instance of [Exception], the handler does not run and the
    process ends with a traceback.  And the geocoder times out but the
    console cannot take the report: the handler's first [print]
    raises, the handler is not entered again and the process ends with
    the traceback of that second exception. *)
Lemma interrupt_counterexample :
  (let e := OfBaseException "KeyboardInterrupt" "" in
   let run :=
     run_script_console (geocode_raises "Eiffel Tower, Paris" e) half_draws in
   In (c_geocode "Eiffel Tower, Paris", Some e) (snd run) /\
   fst run = ExitTraceback e /\
   after_raise (snd run) = []) /\
  (let e := OfException "GeocoderTimedOut" "Service timed out" in
   let e' := OfException "UnicodeEncodeError" "codec can't encode" in
   let run :=
     run_script_console
       (geocode_and_report_raise "Eiffel Tower, Paris" e e') half_draws in
   In (c_geocode "Eiffel Tower, Paris", Some e) (snd run) /\
   isinstance_Exception e = true /\
   after_raise (snd run) = [(c_print (handler_line1 e), Some e')] /\
   fst run = ExitTraceback e').
Proof.
  split; cbv zeta.
  - split; [| split].
    + vm_compute. right. right. right. left. reflexivity.
    + vm_compute. reflexivity.
    + vm_compute. reflexivity.
  - split; [| split; [| split]].
    + vm_compute. right. right. right. left. reflexivity.
    + reflexivity.
    + vm_compute. reflexivity.
    + vm_compute. reflexivity.
Qed.

(** C4 (amended): an exception raised by a call of the geocode,
    generate, render, save or browser-open steps is the first and only
    one the steps raise.  When it is an instance of [Exception] the
    single handler catches it, once, and prints its two lines, the
    first one with the message of the exception; when these two prints
    return the process ends normally, and when one of them raises,
    that exception is not caught and ends the process.  When the
    exception of the step is no instance of [Exception] the handler
    does not run: the exception ends the process, with a traceback
    ([KeyboardInterrupt]) or with an exit status and no traceback
    ([SystemExit]). *)
Theorem exceptions_caught_once (ext : externals) (g : rng float) (c : call)
    (e : exn) :
  In (c, Some e) (snd (run_script_console ext g)) ->
  is_step_call c = true ->
  first_raise (snd (run_script_console ext g)) = Some (c, e) /\
  if isinstance_Exception e
  then handled e (after_raise (snd (run_script_console ext g)))
         (fst (run_script_console ext g))
  else after_raise (snd (run_script_console ext g)) = [] /\
       fst (run_script_console ext g) = uncaught e.
Proof.
  destruct (run_script_console_exceptions ext g) as (ex & log & -> & H & _).
  exact (H c e).
Qed.

Lemma exceptions_caught_once_witness :
  let e := OfException "GeocoderTimedOut" "Service timed out" in
  let ext := geocode_raises "Eiffel Tower, Paris" e in
  let c := c_geocode "Eiffel Tower, Paris" in
  In (c, Some e) (snd (run_script_console ext half_draws)) /\
  is_step_call c = true /\
  first_raise (snd (run_script_console ext half_draws)) = Some (c, e) /\
  handled e (after_raise (snd (run_script_console ext half_draws)))
    (fst (run_script_console ext half_draws)).
Proof.
  intros e ext c.
  assert (Hin : In (c, Some e) (snd (run_script_console ext half_draws))).
  { vm_compute. right. right. right. left. reflexivity. }
  assert (Hc : is_step_call c = true) by reflexivity.
  do 2 (split; [assumption |]).
  exact (@exceptions_caught_once ext half_draws c e Hin Hc).
Defined.

Lemma blank_input_exits_witness :
  let ext := calm "   " (Some eiffel) in
  ext_raises ext (c_input prompt) = None /\
  strip (ext_line ext) = EmptyString /\
  run_script ext half_draws =
    (ExitNormally,
     [(c_input prompt, None);
      (c_print "No location entered. Exiting program.", None)]).
Proof.
  intros ext.
  assert (Hin : ext_raises ext (c_input prompt) = None) by reflexivity.
  assert (Hblank : strip (ext_line ext) = EmptyString) by reflexivity.
  split; [exact Hin |]. split; [exact Hblank |].
  exact (proj1 (@blank_input_exits ext half_draws Hin Hblank)).
Defined.

(** ** A location that does not resolve *)



(** ** The arguments of the generator *)

(** C7: whatever the input and the outside world, every call of
    [generate_random_path] made by [create_tracking_map] starts at the
    coordinate the geocoder returned, with 100 points and a max step
    of 0.0008; the call is made, once, whenever the location resolves
    and the map object is built. *)
Theorem generator_called_with_constants (ext : externals) (addr : string)
    (w : world) :
  exists added,
    w_log (snd (create_tracking_map ext addr w)) = w_log w ++ added /\
    (forall x, In x added -> is_generate x = true ->
       exists lat lon,
         ext_location ext addr = Some (lat, lon) /\
         x = (c_generate_random_path lat lon 100 0.0008%float, None)) /\
    (forall lat lon,
       ext_raises ext (c_Nominatim "gps_tracker_app") = None ->
       ext_raises ext (c_geocode addr) = None ->
       ext_location ext addr = Some (lat, lon) ->
       ext_raises ext (c_Map (lat, lon) 15) = None ->
       filter is_generate added =
       [(c_generate_random_path lat lon 100 0.0008%float, None)]).
Proof.
  run_create_tracking_map rest.
  all: eexists; split; [reflexivity |]; split;
    [ intros x Hin Hx; cbn [In] in Hin;
      repeat match type of Hin with
             | _ \/ _ => destruct Hin as [Hin | Hin]
             end;
      try contradiction Hin; subst x; cbn [is_generate fst] in Hx;
      try discriminate Hx;
      eexists; eexists; split; first [eassumption | reflexivity]
    | intros lat lon H1 H2 H3 H4; try congruence;
      assert (Heq : (lat, lon) = (f, f0)) by congruence;
      injection Heq as -> ->; try congruence; reflexivity ].
Qed.

Lemma generator_called_with_constants_witness :
  let ext := calm "Eiffel Tower, Paris" (Some eiffel) in
  let w := mkWorld half_draws [] in
  filter is_generate
    (w_log (snd (create_tracking_map ext "Eiffel Tower, Paris" w))) =
  [(c_generate_random_path 48.8584%float 2.2945%float 100 0.0008%float,
    None)].
Proof.
  intros ext w.
  destruct (generator_called_with_constants ext "Eiffel Tower, Paris" w)
    as (added & Hlog & _ & Hcall).
  rewrite Hlog. cbn [w_log w app].
  apply (Hcall 48.8584%float 2.2945%float); reflexivity.
Defined.

(** ** The markers *)

(** C9: in a run that gets as far as the start marker (the location
    resolves and the map, the line and the start marker are built),
    the script builds two markers and no more: the green [play] one at
    the first point of the generated path, then the red [stop] one at
    its last point. *)
Theorem two_markers_first_last (ext : externals) (addr : string) (w : world)
    (lat lon : float) :
  ext_raises ext (c_Nominatim "gps_tracker_app") = None ->
  ext_raises ext (c_geocode addr) = None ->
  ext_location ext addr = Some (lat, lon) ->
  ext_raises ext (c_Map (lat, lon) 15) = None ->
  let path := fst (generate_random_path lat lon 100 0.0008%float (w_rng w)) in
  let start_marker :=
    c_Marker (hd (lat, lon) path) "Start Point" "green" "play" in
  let end_marker :=
    c_Marker (last path (lat, lon)) "End Point" "red" "stop" in
  ext_raises ext (c_PolyLine path "blue" 5 0.8%float) = None ->
  ext_raises ext start_marker = None ->
  exists added,
    w_log (snd (create_tracking_map ext addr w)) = w_log w ++ added /\
    map fst (filter is_Marker added) = [start_marker; end_marker] /\
    marker_style start_marker <> marker_style end_marker.
Proof.
  intros Hn Hg Hl Hm path start_marker end_marker Hp Hs.
  subst start_marker end_marker path.
  destruct (generate_random_path_cons lat lon 100 0.0008%float (w_rng w))
    as [rest Hrest].
  rewrite Hrest in *. cbn [hd] in *.
  run_start. rewrite Hn. run_to_call. rewrite Hg. run_to_call.
  rewrite Hl. run_to_call. rewrite Hm. run_to_call.
  rewrite Hrest. rewrite Hp. run_to_call. rewrite Hs. run_to_call.
  run_cases rest'. all: run_done.
  all: eexists; split; [reflexivity |]; split; [reflexivity | discriminate].
Qed.

Lemma two_markers_first_last_witness :
  let addr := "Eiffel Tower, Paris"%string in
  let ext := calm addr (Some eiffel) in
  let w := mkWorld half_draws [] in
  let path := fst (generate_random_path 48.8584%float 2.2945%float 100
                     0.0008%float half_draws) in
  map fst
    (filter is_Marker (w_log (snd (create_tracking_map ext addr w)))) =
  [c_Marker (hd eiffel path) "Start Point" "green" "play";
   c_Marker (last path eiffel) "End Point" "red" "stop"].
Proof.
  intros addr ext w path.
  pose proof (@two_markers_first_last ext addr w 48.8584%float 2.2945%float
                (eq_refl None) (eq_refl None) (eq_refl (Some eiffel))
                (eq_refl None) (eq_refl None) (eq_refl None)) as H.
  destruct H as (added & Hlog & Hmarkers & _).
  cbn [w_log w app] in Hlog. rewrite Hlog. exact Hmarkers.
Defined.

(** * Further properties of the path generator *)

Section WalkFacts.

Context {F : Type} `{Arith F}.

Lemma walk_rng n : forall (M : F) path lat lon d c,
  snd (walk n M path lat lon (mkRng d c)) = mkRng d (c + 2 * n).
Proof.
  induction n as [|n IH]; intros M path lat lon d c; simpl.
  - f_equal. lia.
  - rewrite IH. f_equal. lia.
Qed.

Lemma generate_random_path_length (lat lon : F) (N : Z) (M : F) (g : rng F) :
  length (fst (generate_random_path lat lon N M g)) = S (range_len (N - 1)).
Proof.
  destruct g as [d c]. rewrite generate_random_path_points. simpl.
  now rewrite points_length.
Qed.

(** X1: a call consumes two draws for each point after the first and
    nothing else of the generator: the stream is the same, the cursor
    is [2 * max (N - 1) 0] further. *)
Theorem generate_random_path_draws (lat lon : F) (N : Z) (M : F) (g : rng F) :
  draws (snd (generate_random_path lat lon N M g)) = draws g /\
  Z.of_nat (cursor (snd (generate_random_path lat lon N M g))) =
  (Z.of_nat (cursor g) + 2 * Z.max (N - 1) 0)%Z.
Proof.
  destruct g as [d c]. unfold generate_random_path.
  rewrite walk_rng. cbn [draws cursor]. split; [reflexivity |].
  unfold range_len. lia.
Qed.

Lemma firstn_points n : forall m (M : F) lat lon g k,
  firstn n (points (n + m) M lat lon g k) = points n M lat lon g k.
Proof.
  induction n as [|n IH]; intros m M lat lon g k; [reflexivity |].
  cbn [Nat.add points firstn]. now rewrite IH.
Qed.

(** X2: on the same generator state, asking for more points leaves
    the earlier ones as they are: the path of [N] points is the first
    [N] points of the path of [N'] points. *)
Theorem generate_random_path_prefix (lat lon : F) (N N' : Z) (M : F)
    (g : rng F) :
  (1 <= N)%Z -> (N <= N')%Z ->
  fst (generate_random_path lat lon N M g) =
  firstn (Z.to_nat N) (fst (generate_random_path lat lon N' M g)).
Proof.
  intros H1 H2. destruct g as [d c]. rewrite !generate_random_path_points.
  unfold range_len.
  replace (Z.to_nat N) with (S (Z.to_nat (N - 1))) by lia.
  replace (Z.to_nat (N' - 1))
    with (Z.to_nat (N - 1) + Z.to_nat (N' - N))%nat by lia.
  cbn [firstn]. now rewrite firstn_points.
Qed.

Lemma points_local n : forall (M : F) lat lon d c d' c',
  (forall j, (j < 2 * n)%nat -> d (c + j)%nat = d' (c' + j)%nat) ->
  points n M lat lon (mkRng d 0) c = points n M lat lon (mkRng d' 0) c'.
Proof.
  induction n as [|n IH]; intros M lat lon d c d' c' Hd; [reflexivity |].
  cbn [points]. unfold step_of. cbn [draws cursor Nat.add].
  assert (H0 : d c = d' c').
  { generalize (Hd 0%nat). rewrite !Nat.add_0_r. intros E. apply E. lia. }
  assert (H1 : d (S c) = d' (S c')).
  { generalize (Hd 1%nat). rewrite !Nat.add_1_r. intros E. apply E. lia. }
  rewrite H0, H1. f_equal. apply IH. intros j Hj.
  generalize (Hd (S (S j))). rewrite !Nat.add_succ_r. cbn [Nat.add].
  intros E. apply E. lia.
Qed.

(** X3: the path depends on the generator through the
    [2 * (N - 1)] draws that follow the cursor only: two generators
    that agree on them give the same path. *)
Theorem generate_random_path_local (lat lon : F) (N : Z) (M : F)
    (g g' : rng F) :
  (forall j, (j < 2 * range_len (N - 1))%nat ->
     draws g (cursor g + j)%nat = draws g' (cursor g' + j)%nat) ->
  fst (generate_random_path lat lon N M g) =
  fst (generate_random_path lat lon N M g').
Proof.
  destruct g as [d c], g' as [d' c']. cbn [draws cursor]. intros Hd.
  rewrite !generate_random_path_points. f_equal. now apply points_local.
Qed.

End WalkFacts.

Lemma generate_random_path_prefix_witness :
  (1 <= 3)%Z /\ (3 <= 100)%Z /\
  fst (generate_random_path 48.8584%float 2.2945%float 3 0.0008%float
         half_draws) =
  firstn 3 (fst (generate_random_path 48.8584%float 2.2945%float 100
                   0.0008%float half_draws)).
Proof.
  assert (H1 : (1 <= 3)%Z) by lia. assert (H2 : (3 <= 100)%Z) by lia.
  split; [exact H1 |]. split; [exact H2 |].
  exact (@generate_random_path_prefix float binary64 48.8584%float
           2.2945%float 3 100 0.0008%float half_draws H1 H2).
Defined.

Lemma generate_random_path_local_witness :
  let g := mkRng (fun k => if (k <? 4)%nat then 0.5%float else 0.25%float) 0 in
  let g' := mkRng (fun k => if (k <? 9)%nat then 0.5%float else 0.75%float) 5 in
  fst (generate_random_path 48.8584%float 2.2945%float 3 0.0008%float g) =
  fst (generate_random_path 48.8584%float 2.2945%float 3 0.0008%float g').
Proof.
  intros g g'.
  apply (@generate_random_path_local float binary64 48.8584%float
           2.2945%float 3 0.0008%float g g').
  intros j Hj. change (range_len (3 - 1)) with 2%nat in Hj.
  do 4 (destruct j as [|j]; [reflexivity |]). lia.
Defined.

(** * Further properties of the script *)

(** ** The line typed at the prompt *)

Lemma lstrip_cases (s : string) :
  (all_space s = true /\ lstrip s = EmptyString) \/
  (all_space s = false /\
   exists c t, lstrip s = String c t /\ isspace c = false).
Proof.
  induction s as [|c s IH]; [left; split; reflexivity |].
  cbn [all_space lstrip]. destruct (isspace c) eqn:Ec.
  - exact IH.
  - right. split; [reflexivity |]. exists c, s. split; [reflexivity | exact Ec].
Qed.

Lemma rstrip_nonempty (c : ascii) (t : string) :
  isspace c = false -> rstrip (String c t) <> EmptyString.
Proof.
  intros Ec. cbn [rstrip]. destruct (rstrip t); [rewrite Ec |]; discriminate.
Qed.

(** The test [if starting_location.strip():] fails exactly on the
    lines made of whitespace. *)
Lemma strip_truth (s : string) : str_bool (strip s) = negb (all_space s).
Proof.
  unfold strip.
  destruct (lstrip_cases s) as [[Ha ->] | (Ha & c & t & -> & Ec)]; rewrite Ha.
  - reflexivity.
  - pose proof (@rstrip_nonempty c t Ec) as Hne.
    destruct (rstrip (String c t)); [contradiction Hne; reflexivity |].
    reflexivity.
Qed.

Lemma run_script_nonblank (ext : externals) (g : rng float) :
  ext_raises ext (c_input prompt) = None ->
  all_space (ext_line ext) = false ->
  run_script ext g =
  match create_tracking_map ext (ext_line ext)
          (mkWorld g [(c_input prompt, None)]) with
  | (Ret _, w) => (ExitNormally, w_log w)
  | (Raise e, w) => (uncaught e, w_log w)
  end.
Proof.
  intros Hin Hline. unfold run_script, main, input.
  rewrite bind_bind, external_bind, Hin, ret_bind, strip_truth, Hline.
  reflexivity.
Qed.

Lemma run_script_nonblank_log (ext : externals) (g : rng float) :
  ext_raises ext (c_input prompt) = None ->
  all_space (ext_line ext) = false ->
  snd (run_script ext g) =
  w_log (snd (create_tracking_map ext (ext_line ext)
                (mkWorld g [(c_input prompt, None)]))).
Proof.
  intros Hin Hline. rewrite (@run_script_nonblank ext g Hin Hline).
  destruct (create_tracking_map _ _ _) as [[[] | e] w']; reflexivity.
Qed.

(** X5: when the line has a character that is no whitespace, the
    script goes on with the line as it was typed: the whitespace
    around it is kept in the text that is printed and in the query
    sent to the geocoder. *)
Theorem nonblank_line_used_as_typed (ext : externals) (g : rng float) :
  ext_raises ext (c_input prompt) = None ->
  all_space (ext_line ext) = false ->
  exists rest,
    snd (run_script ext g) =
    (c_input prompt, None) ::
    (c_print ("Finding coordinates for: " ++ ext_line ext ++ "...")%string,
     None) ::
    (c_Nominatim "gps_tracker_app",
     ext_raises ext (c_Nominatim "gps_tracker_app")) :: rest /\
    (ext_raises ext (c_Nominatim "gps_tracker_app") = None ->
     exists rest',
       rest = (c_geocode (ext_line ext),
               ext_raises ext (c_geocode (ext_line ext))) :: rest').
Proof.
  intros Hin Hline. rewrite (@run_script_nonblank_log ext g Hin Hline).
  run_create_tracking_map rest.
  all: eexists; split;
    [reflexivity | intros Hn; try discriminate Hn; eexists; reflexivity].
Qed.

Lemma nonblank_line_used_as_typed_witness :
  let ext := calm "  Paris " None in
  ext_raises ext (c_input prompt) = None /\
  all_space (ext_line ext) = false /\
  nth_error (snd (run_script ext half_draws)) 3 =
  Some (c_geocode "  Paris ", None).
Proof.
  intros ext.
  assert (Hin : ext_raises ext (c_input prompt) = None) by reflexivity.
  assert (Hline : all_space (ext_line ext) = false) by reflexivity.
  split; [exact Hin |]. split; [exact Hline |].
  destruct (@nonblank_line_used_as_typed ext half_draws Hin Hline)
    as (rest & Hlog & Hgeo).
  destruct (Hgeo eq_refl) as [rest' Hrest].
  rewrite Hlog, Hrest. reflexivity.
Defined.

(** X6: the prompt is outside the [try]: an exception raised by
    [input] (end of input, an interrupt), of whatever class, is not
    caught; nothing else runs and the process ends on it, with a
    traceback, or for [SystemExit] with an exit status and no
    traceback. *)
Theorem input_failure_not_caught (ext : externals) (g : rng float) (e : exn) :
  ext_raises ext (c_input prompt) = Some e ->
  run_script_console ext g = (uncaught e, [(c_input prompt, Some e)]) /\
  (fst (run_script_console ext g) = ExitTraceback e <->
   e <> OfSystemExit (str_exn e)).
Proof.
  intros Hin. unfold run_script_console, main_on, input.
  rewrite bind_bind, external_bind, Hin. cbn [fst snd logged w_log app].
  split; [reflexivity |].
  destruct e; cbn [uncaught str_exn]; split; intros H; try reflexivity;
    try discriminate; now contradiction H.
Qed.

Lemma input_failure_not_caught_witness :
  let e := OfException "EOFError" "EOF when reading a line" in
  let ext :=
    mkExternals "" (fun c => match c with c_input _ => Some e | _ => None end)
      (fun _ => Some eiffel) (fun f => f) (fun _ => "<float>"%string) in
  ext_raises ext (c_input prompt) = Some e /\
  run_script_console ext half_draws =
  (ExitTraceback e, [(c_input prompt, Some e)]).
Proof.
  intros e ext.
  assert (Hin : ext_raises ext (c_input prompt) = Some e) by reflexivity.
  split; [exact Hin |].
  exact (proj1 (@input_failure_not_caught ext half_draws e Hin)).
Defined.

(** ** What is saved and what is opened *)

Ltac find_in := solve [repeat first [left; reflexivity | right]].

(** X7: the browser is opened on the saved file and on nothing else:
    a call of [webbrowser.open] has the [file://] URL of the real path
    of the map file, and [m.save] has returned before it. *)
Theorem browser_only_after_save (ext : externals) (addr : string) (w : world) :
  exists added,
    w_log (snd (create_tracking_map ext addr w)) = w_log w ++ added /\
    (forall u r, In (c_webbrowser_open u, r) added ->
       u = ("file://" ++ ext_realpath ext map_file)%string /\
       In (c_save map_file, None) (up_to is_open added)).
Proof.
  run_create_tracking_map rest.
  all: eexists; split; [reflexivity |].
  all: intros u r Hin; in_log Hin; try discriminate Hin.
  all: injection Hin as <- <-; split; [reflexivity |].
  all: cbn [up_to is_open fst In]; find_in.
Qed.

(** X8: the map is saved at most once, under the fixed name
    [gps_tracking_map.html], and only when it is complete: the line
    and the two markers have been added, without an exception, before
    [m.save] is called. *)
Theorem save_only_complete_map (ext : externals) (addr : string) (w : world) :
  exists added,
    w_log (snd (create_tracking_map ext addr w)) = w_log w ++ added /\
    (forall f r, In (c_save f, r) added ->
       f = "gps_tracking_map.html"%string /\
       length (filter is_save added) = 1%nat /\
       exists p rest,
         In (c_PolyLine (p :: rest) "blue" 5 0.8%float, None)
            (up_to is_save added) /\
         In (c_Marker p "Start Point" "green" "play", None)
            (up_to is_save added) /\
         In (c_Marker (last (p :: rest) p) "End Point" "red" "stop", None)
            (up_to is_save added)).
Proof.
  run_create_tracking_map rest.
  all: eexists; split; [reflexivity |].
  all: intros fl r Hin; in_log Hin; try discriminate Hin.
  all: injection Hin as <- <-; split; [reflexivity |]; split; [reflexivity |].
  all: eexists; eexists; cbn [up_to is_save fst In].
  all: split; [find_in |]; split; find_in.
Qed.

(** X9: the success lines are printed exactly when [m.save] has
    returned; they are printed even when opening the browser fails
    afterwards. *)
Theorem success_lines_iff_saved (ext : externals) (addr : string) (w : world) :
  exists added,
    w_log (snd (create_tracking_map ext addr w)) = w_log w ++ added /\
    (In (c_print success_line1, None) added <->
     In (c_save map_file, None) added) /\
    (In (c_print success_line2, None) added <->
     In (c_save map_file, None) added).
Proof.
  run_create_tracking_map rest.
  all: eexists; split; [reflexivity |].
  all: split; split; intros Hin.
  all: first
    [ solve [find_in]
    | exfalso; in_log Hin; vm_compute in Hin; discriminate Hin ].
Qed.

(** X10: a run calls the generator at most once, and the state of the
    [random] module moves with that call only: 198 draws further when
    the generator was called, untouched when the run stopped before
    it. *)
Theorem draws_consumed_by_run (ext : externals) (addr : string) (w : world) :
  exists added,
    w_log (snd (create_tracking_map ext addr w)) = w_log w ++ added /\
    (length (filter is_generate added) <= 1)%nat /\
    draws (w_rng (snd (create_tracking_map ext addr w))) = draws (w_rng w) /\
    cursor (w_rng (snd (create_tracking_map ext addr w))) =
    (cursor (w_rng w) + 198 * length (filter is_generate added))%nat.
Proof.
  run_create_tracking_map rest.
  all: eexists; split; [reflexivity |].
  all: cbn [filter is_generate fst length]; split; [lia |].
  all: try (destruct (w_rng w) as [d c]; unfold generate_random_path;
            rewrite walk_rng).
  all: cbn [draws cursor]; split; [reflexivity |].
  all: try change (range_len (100 - 1)) with 99%nat; lia.
Qed.

(** X11: the map is centred on the coordinate the geocoder returned,
    at zoom 15, and the start marker sits on that same coordinate. *)
Theorem map_centre_and_start_marker (ext : externals) (addr : string)
    (w : world) :
  exists added,
    w_log (snd (create_tracking_map ext addr w)) = w_log w ++ added /\
    (forall location zoom r, In (c_Map location zoom, r) added ->
       ext_location ext addr = Some location /\ zoom = 15%Z) /\
    (forall location colour glyph r,
       In (c_Marker location "Start Point" colour glyph, r) added ->
       ext_location ext addr = Some location).
Proof.
  run_create_tracking_map rest.
  all: eexists; split; [reflexivity |]; split.
  all: intros; match goal with Hin : In _ _ |- _ => in_log Hin;
         try discriminate Hin; injection Hin as; subst end.
  all: try split; first [assumption | reflexivity].
Qed.

(** X12: the geocoder is built and queried at most once in a run, with
    the address it was given: a lookup that fails is not tried
    again. *)
Theorem geocoder_queried_once (ext : externals) (addr : string) (w : world) :
  exists added,
    w_log (snd (create_tracking_map ext addr w)) = w_log w ++ added /\
    (length (filter is_geocode added) <= 1)%nat /\
    (forall q r, In (c_geocode q, r) added -> q = addr) /\
    (forall agent r, In (c_Nominatim agent, r) added ->
       agent = "gps_tracker_app"%string).
Proof.
  run_create_tracking_map rest.
  all: eexists; split; [reflexivity |].
  all: split; [cbn [filter is_geocode fst length]; lia |]; split.
  all: intros; match goal with Hin : In _ _ |- _ => in_log Hin;
         try discriminate Hin; injection Hin as; subst end.
  all: reflexivity.
Qed.

(** X13: the line drawn on the map is the whole generated path, 100
    positions that start at the geocoded coordinate, in blue with
    weight 5 and opacity 0.8. *)
Theorem polyline_is_generated_path (ext : externals) (addr : string)
    (w : world) :
  exists added,
    w_log (snd (create_tracking_map ext addr w)) = w_log w ++ added /\
    (forall locations colour weight opacity r,
       In (c_PolyLine locations colour weight opacity, r) added ->
       exists lat lon,
         ext_location ext addr = Some (lat, lon) /\
         locations =
           fst (generate_random_path lat lon 100 0.0008%float (w_rng w)) /\
         length locations = 100%nat /\
         nth_error locations 0 = Some (lat, lon) /\
         colour = "blue"%string /\ weight = 5%Z /\ opacity = 0.8%float).
Proof.
  run_create_tracking_map rest.
  all: eexists; split; [reflexivity |].
  all: intros locs colour weight opacity r Hin; in_log Hin;
    try discriminate Hin.
  all: injection Hin as <- <- <- <- <-.
  all: eexists; eexists; split; [first [eassumption | reflexivity] |].
  all: rewrite <- Hpath; split; [reflexivity |].
  all: rewrite generate_random_path_length, Hpath.
  all: repeat split.
Qed.

(** ** How the process ends *)

(** X14: on a console that can fail, the process ends on an uncaught
    exception in these cases only: the exception was raised outside
    the [try] (by [input], by the first [print] or by the notice for a
    blank line), by one of the two prints of the handler, or it is no
    instance of [Exception]; the call that raised it is the last entry
    of the log. *)
Theorem traceback_only_if (ext : externals) (g : rng float) :
  fst (run_script_console ext g) <> ExitNormally ->
  exists c e before,
    snd (run_script_console ext g) = before ++ [(c, Some e)] /\
    fst (run_script_console ext g) = uncaught e /\
    escapes ext c e.
Proof.
  destruct (run_script_console_exceptions ext g) as (ex & log & -> & _ & H).
  exact H.
Qed.

Lemma traceback_only_if_witness :
  let e := OfException "GeocoderTimedOut" "Service timed out" in
  let e' := OfException "UnicodeEncodeError" "codec can't encode" in
  let ext := geocode_and_report_raise "Eiffel Tower, Paris" e e' in
  fst (run_script_console ext half_draws) <> ExitNormally /\
  exists c e0 before,
    snd (run_script_console ext half_draws) = before ++ [(c, Some e0)] /\
    fst (run_script_console ext half_draws) = uncaught e0 /\
    escapes ext c e0.
Proof.
  intros e e' ext.
  assert (He : fst (run_script_console ext half_draws) <> ExitNormally)
    by (vm_compute; discriminate).
  split; [exact He |].
  exact (@traceback_only_if ext half_draws He).
Defined.

(** X15: the run in which the location resolves and every call
    returns.  The script makes these fifteen calls in this order and
    ends normally: the line drawn has the 100 generated positions, the
    markers sit on the first and the last of them, the file saved is
    the map file and the URL opened is that of its real path. *)
Theorem successful_run (ext : externals) (g : rng float) (lat lon : float) :
  (forall c, ext_raises ext c = None) ->
  all_space (ext_line ext) = false ->
  ext_location ext (ext_line ext) = Some (lat, lon) ->
  let path := fst (generate_random_path lat lon 100 0.0008%float g) in
  length path = 100%nat /\
  run_script ext g =
  (ExitNormally,
   [(c_input prompt, None);
    (c_print ("Finding coordinates for: " ++ ext_line ext ++ "...")%string,
     None);
    (c_Nominatim "gps_tracker_app", None);
    (c_geocode (ext_line ext), None);
    (c_print ("Coordinates found: (" ++ ext_str_float ext lat ++ ", " ++
              ext_str_float ext lon ++ ")")%string, None);
    (c_Map (lat, lon) 15, None);
    (c_print "Generating simulated GPS path...", None);
    (c_generate_random_path lat lon 100 0.0008%float, None);
    (c_PolyLine path "blue" 5 0.8%float, None);
    (c_Marker (lat, lon) "Start Point" "green" "play", None);
    (c_Marker (last path (lat, lon)) "End Point" "red" "stop", None);
    (c_save "gps_tracking_map.html", None);
    (c_print success_line1, None);
    (c_print "Saved as: gps_tracking_map.html", None);
    (c_webbrowser_open
       ("file://" ++ ext_realpath ext "gps_tracking_map.html")%string,
     None)]).
Proof.
  intros Hall Hline Hloc path. subst path.
  split; [apply generate_random_path_length |].
  rewrite (@run_script_nonblank ext g (Hall _) Hline).
  destruct (generate_random_path_cons lat lon 100 0.0008%float g)
    as [rest Hrest].
  run_start.
  repeat first
    [ rewrite Hall | rewrite Hloc | rewrite Hrest | run_step
    | progress cbn [logged w_rng w_log] ].
  reflexivity.
Qed.

Lemma successful_run_witness :
  let ext := calm "Eiffel Tower, Paris" (Some eiffel) in
  let path := fst (generate_random_path 48.8584%float 2.2945%float 100
                     0.0008%float half_draws) in
  length path = 100%nat /\
  fst (run_script ext half_draws) = ExitNormally /\
  length (snd (run_script ext half_draws)) = 15%nat.
Proof.
  intros ext path.
  destruct (@successful_run ext half_draws 48.8584%float 2.2945%float
              (fun _ => eq_refl) eq_refl eq_refl) as [Hlen Hrun].
  split; [exact Hlen |]. rewrite Hrun. split; reflexivity.
Defined.
